(** * WeatherBusLite: the master-side query/response driver

    A shallow embedding of [WeatherBusLite.cpp] / [WeatherBusLite.h]
    (the ten-channel version of the library) and the properties of its
    query encoder and response parser.

    Conventions of the embedding:
    - a C [char] is an [ascii]; a [const char*] is the list of characters
      found at the pointer, terminator and what follows it included;
    - [int index] is a [Z]; [unsigned long] readings of [millis()] are [Z]
      with the 32-bit wrap-around of the subtraction written out;
    - the [float &value] out-parameter is passed in and returned;
    - the global [RS485] object and the Arduino timer are an explicit
      [World] threaded through a small monad. *)

From Stdlib Require Import ZArith QArith Ascii String Lia.
From stdpp Require Import base tactics option list strings.

Local Open Scope Z_scope.

(** ** Characters and C strings *)

Definition NUL : ascii := "000"%char.
Definition LF : ascii := "010"%char.
Definition COLON : ascii := ":"%char.

(** The bytes of the C string starting at a pointer: everything before the
    first terminator. This is what a library routine taking a [const char*]
    reads. *)
Fixpoint cstr (s : list ascii) : list ascii :=
  match s with
  | [] => []
  | c :: s' => if (c =? NUL)%char then [] else c :: cstr s'
  end.

(** Modelled from the spec: [strchr] of the C library, which is not part of
    the repository; section 4.2 of the specification has the buffer scanned
    for the first colon byte. The result is the offset of the first
    occurrence of [c] in the C string [s], or [None] for a null pointer; the
    character is compared before the terminator test, and the scan does not
    go past the terminator. *)
Fixpoint strchr (s : list ascii) (c : ascii) : option nat :=
  match s with
  | [] => None
  | x :: s' =>
      if (x =? c)%char then Some 0%nat
      else if (x =? NUL)%char then None
      else S <$> strchr s' c
  end.

(** ** Numeric conversion *)

(** A measurement is represented by the exact rational value of the decimal
    literal that was converted, in lowest terms; the rounding of that value
    to the target's binary [float] format is left outside the model. *)
Definition float : Type := Q.

Definition isspace (c : ascii) : bool :=
  let n := N_of_ascii c in ((n =? 32) || ((9 <=? n) && (n <=? 13)))%N.

Definition isdigit (c : ascii) : bool :=
  let n := N_of_ascii c in ((48 <=? n) && (n <=? 57))%N.

Definition digit_value (c : ascii) : Z := Z.of_N (N_of_ascii c) - 48.

Fixpoint skip_spaces (s : list ascii) : list ascii :=
  match s with
  | c :: s' => if isspace c then skip_spaces s' else s
  | [] => []
  end.

(** Reads a run of decimal digits onto the accumulator [acc]; returns the
    new accumulator, the number of digits read and the rest of the text. *)
Fixpoint read_digits (s : list ascii) (acc : Z) (n : nat) : Z * nat * list ascii :=
  match s with
  | c :: s' => if isdigit c then read_digits s' (acc * 10 + digit_value c) (S n)
               else (acc, n, s)
  | [] => (acc, n, [])
  end.

(** Optional sign: [true] for a minus. *)
Definition read_sign (s : list ascii) : bool * list ascii :=
  match s with
  | c :: s' => if (c =? "-")%char then (true, s')
               else if (c =? "+")%char then (false, s')
               else (false, s)
  | [] => (false, [])
  end.

(** Optional exponent part: [e] or [E], an optional sign and at least one
    digit; anything else is not part of the number and counts as exponent 0. *)
Definition read_exponent (s : list ascii) : Z :=
  match s with
  | c :: s' =>
      if (c =? "e")%char || (c =? "E")%char then
        let '(neg, s1) := read_sign s' in
        let '(e, n, _) := read_digits s1 0 0 in
        match n with
        | O => 0
        | _ => if neg then - e else e
        end
      else 0
  | [] => 0
  end.

(** Modelled from the spec: [atof] of the C library, which is not part of the
    repository. Section 4.2 of the specification fixes its semantics: leading
    white space is skipped, the longest decimal floating-point literal is
    converted, conversion stops at the first character that cannot continue
    the literal, and the result is 0.0 when no digits are found. The special
    forms of some C libraries (infinities, NaN, hexadecimal) are not
    modelled. *)
Definition atof (s : list ascii) : float :=
  let '(neg, s1) := read_sign (skip_spaces s) in
  let '(ip, ni, s2) := read_digits s1 0 0 in
  let '(m, nf, s3) :=
    match s2 with
    | c :: s2' => if (c =? ".")%char then read_digits s2' ip 0 else (ip, O, s2)
    | [] => (ip, O, [])
    end in
  match (ni + nf)%nat with
  | O => 0%Q
  | _ =>
      let e := read_exponent s3 - Z.of_nat nf in
      Qred (((if neg then - m else m) # 1) * Qpower (10 # 1) e)
  end.

Definition chars (s : string) : list ascii := list_ascii_of_string s.

(** ** The world: the RS485 bus object and the millisecond timer *)

Definition WEATHERBUSLITE_RESPONSE_TIMEOUT : Z := 1000.
Definition WEATHERBUSLITE_GRACE : Z := 2.

(** Calls made on the external collaborators ([RS485] and [delay]), in the
    order they are made. [EvPrint s] carries the bytes handed to the
    transport; [EvPrintln] stands for the transport's line terminator. *)
Inductive Call : Type :=
  | EvBegin (baudRate : Z)
  | EvBeginTransmission
  | EvPrint (s : list ascii)
  | EvPrintln
  | EvEndTransmission
  | EvFlush
  | EvDelay (ms : Z)
  | EvReceive
  | EvNoReceive.

(** What one iteration of the scan loop observes: the reading of [millis()]
    in the loop test and, when [RS485.available()] is non-zero, the byte
    that [RS485.read()] hands over in that iteration. *)
Record poll : Type := Poll { tick : Z; incoming : option ascii }.

Record World : Type := mkWorld {
  calls : list Call;      (* calls made so far, oldest first *)
  receiving : bool;       (* receive path enabled *)
  now : Z;                (* current reading of millis() *)
  polls : list poll       (* what the coming loop iterations will observe *)
}.

(** Outcome of a computation: a result, a store outside the response buffer
    (undefined behaviour in C), or a scan loop that is still running when
    the supplied observations end. *)
Inductive result (A : Type) : Type :=
  | Done (a : A)
  | Fault
  | Pending.
Arguments Done {A} a.
Arguments Fault {A}.
Arguments Pending {A}.

Definition M (A : Type) : Type := World → result (A * World).

#[global] Instance M_ret : MRet M := λ A a w, Done (a, w).
#[global] Instance M_bind : MBind M := λ A B f m w,
  match m w with
  | Done (a, w') => f a w'
  | Fault => Fault
  | Pending => Pending
  end.

Definition call (c : Call) : M unit :=
  λ w, Done (tt, mkWorld (calls w ++ [c]) (receiving w) (now w) (polls w)).

Definition ulong (z : Z) : Z := z mod 2 ^ 32.

Definition millis : M Z := λ w, Done (ulong (now w), w).

Definition delay (ms : Z) : M unit :=
  λ w, Done (tt, mkWorld (calls w ++ [EvDelay ms]) (receiving w) (ulong (now w + ms)) (polls w)).

Definition RS485_begin (baudRate : Z) : M unit := call (EvBegin baudRate).
Definition RS485_beginTransmission : M unit := call EvBeginTransmission.
Definition RS485_print (s : list ascii) : M unit := call (EvPrint (cstr s)).
Definition RS485_println : M unit := call EvPrintln.
Definition RS485_endTransmission : M unit := call EvEndTransmission.
Definition RS485_flush : M unit := call EvFlush.

Definition RS485_receive : M unit :=
  λ w, Done (tt, mkWorld (calls w ++ [EvReceive]) true (now w) (polls w)).
Definition RS485_noReceive : M unit :=
  λ w, Done (tt, mkWorld (calls w ++ [EvNoReceive]) false (now w) (polls w)).

(** ** WeatherBusLite::begin and WeatherBusLite::sendQuery *)

Definition begin (baudRate : Z) : M unit := RS485_begin baudRate.

Definition sendQuery (query : list ascii) : M unit :=
  RS485_beginTransmission ;;
  RS485_print query ;;
  RS485_println ;;
  RS485_endTransmission ;;
  RS485_flush ;;
  delay WEATHERBUSLITE_GRACE.

(** ** WeatherBusLite::parseResponse *)

Inductive ParseState : Type := WAIT_FOR_START | READ_PAYLOAD | DONE.

(** The locals of [parseResponse] that live across loop iterations. *)
Record Locals : Type := mkLocals {
  state : ParseState;
  response : list ascii;
  index : Z
}.

(** [sizeof(response)] *)
Definition sizeof_response : Z := 32.

(** [char response[32] = {0}; int index = 0; state = WAIT_FOR_START] *)
Definition locals0 : Locals :=
  mkLocals WAIT_FOR_START (replicate (Z.to_nat sizeof_response) NUL) 0.

(** [response[i] = c]; [None] when [i] is outside the array. *)
Definition store (response : list ascii) (i : Z) (c : ascii) : option (list ascii) :=
  if (0 <=? i) && (i <? Z.of_nat (length response))
  then Some (<[Z.to_nat i := c]> response)
  else None.

(** The [switch (state)] statement, run on one incoming byte. In the test
    [index >= sizeof(response) - 1] the index is converted to the unsigned
    type of [sizeof]; it is never negative, so the comparison is that of
    the integers. *)
Definition step (expectedType incoming : ascii) (l : Locals) : option Locals :=
  match state l with
  | WAIT_FOR_START =>
      if (incoming =? expectedType)%char then
        r ← store (response l) (index l) incoming;
        Some (mkLocals READ_PAYLOAD r (index l + 1))
      else Some l
  | READ_PAYLOAD =>
      if (incoming =? LF)%char || (sizeof_response - 1 <=? index l) then
        r ← store (response l) (index l) NUL;
        Some (mkLocals DONE r (index l))
      else
        r ← store (response l) (index l) incoming;
        Some (mkLocals READ_PAYLOAD r (index l + 1))
  | DONE => Some l
  end.

(** The [if (state == DONE)] block: [Some v] when it executes
    [value = atof(colonPos + 1); return true], [None] when control falls
    through to the next loop iteration. *)
Definition try_finish (l : Locals) : option float :=
  match state l with
  | DONE =>
      match strchr (response l) COLON with
      | Some colonPos => Some (atof (cstr (drop (S colonPos) (response l))))
      | None => None
      end
  | _ => None
  end.

Definition elapsed (t startMillis : Z) : Z := ulong (ulong t - startMillis).

(** The [while] loop. It returns [Some v] when the loop body returns true
    after assigning [v], [None] when the loop test fails, together with the
    clock reading last seen and the observations not yet consumed. *)
Fixpoint scan (expectedType : ascii) (startMillis : Z) (ps : list poll)
    (l : Locals) : result (option float * Z * list poll) :=
  match ps with
  | [] => Pending
  | p :: ps' =>
      if elapsed (tick p) startMillis <? WEATHERBUSLITE_RESPONSE_TIMEOUT then
        match incoming p with
        | Some c =>
            match step expectedType c l with
            | Some l' =>
                match try_finish l' with
                | Some v => Done (Some v, ulong (tick p), ps')
                | None => scan expectedType startMillis ps' l'
                end
            | None => Fault
            end
        | None => scan expectedType startMillis ps' l
        end
      else Done (None, ulong (tick p), ps')
  end.

Definition scan_loop (expectedType : ascii) (startMillis : Z) : M (option float) :=
  λ w,
    match scan expectedType startMillis (polls w) locals0 with
    | Done (r, t, ps) => Done (r, mkWorld (calls w) (receiving w) t ps)
    | Fault => Fault
    | Pending => Pending
    end.

Definition parseResponse (expectedType : ascii) (value : float) : M (bool * float) :=
  startMillis ← millis;
  RS485_receive ;;
  r ← scan_loop expectedType startMillis;
  match r with
  | Some v => mret (true, v)
  | None => RS485_noReceive ;; mret (false, value)
  end.

(** ** The query operations *)

Definition queryTemp (temperature : float) : M (bool * float) :=
  sendQuery (chars "?T" ++ [NUL]) ;; parseResponse "T" temperature.

Definition queryHumidity (humidity : float) : M (bool * float) :=
  sendQuery (chars "?H" ++ [NUL]) ;; parseResponse "H" humidity.

Definition queryPressure (pressure : float) : M (bool * float) :=
  sendQuery (chars "?P" ++ [NUL]) ;; parseResponse "P" pressure.

Definition queryAirQuality (airQuality : float) : M (bool * float) :=
  sendQuery (chars "?A" ++ [NUL]) ;; parseResponse "A" airQuality.

Definition queryUV (UV : float) : M (bool * float) :=
  sendQuery (chars "?U" ++ [NUL]) ;; parseResponse "U" UV.

Definition queryRainfall (rainfall : float) : M (bool * float) :=
  sendQuery (chars "?R" ++ [NUL]) ;; parseResponse "R" rainfall.

Definition queryWindSpeed (windSpeed : float) : M (bool * float) :=
  sendQuery (chars "?W" ++ [NUL]) ;; parseResponse "W" windSpeed.

Definition queryWindDirection (windDirection : float) : M (bool * float) :=
  sendQuery (chars "?D" ++ [NUL]) ;; parseResponse "D" windDirection.

Definition queryCanopyTemperature (canopyTemperature : float) : M (bool * float) :=
  sendQuery (chars "?C" ++ [NUL]) ;; parseResponse "C" canopyTemperature.

Definition queryCustom (queryType : ascii) (value : float) : M (bool * float) :=
  let query := ["?"%char; queryType; NUL] in
  sendQuery query ;; parseResponse queryType value.

(** The nine fixed-channel operations with the channel code of each. *)
Definition fixed_queries : list (ascii * (float → M (bool * float))) :=
  [ ("T"%char, queryTemp);
    ("H"%char, queryHumidity);
    ("P"%char, queryPressure);
    ("A"%char, queryAirQuality);
    ("U"%char, queryUV);
    ("R"%char, queryRainfall);
    ("W"%char, queryWindSpeed);
    ("D"%char, queryWindDirection);
    ("C"%char, queryCanopyTemperature) ].

(** ** The declared interface

    The [public:] and [private:] sections of [class WeatherBusLite], member
    by member in the order of declaration. *)

Inductive ctype : Type := Void | Bool | Char | UInt32 | FloatRef | ConstCharPtr.

Record param : Type := mkParam {
  p_type : ctype;
  p_default : option Z       (* default argument, if one is declared *)
}.

Inductive access : Type := Public | Private.

Record member : Type := mkMember {
  m_access : access;
  m_name : string;
  m_return : option ctype;   (* [None] for the constructor *)
  m_params : list param
}.




(** ** Test worlds *)

(** Loop iterations that each find one byte of [s] waiting, all at clock
    reading [t]. *)
Definition feed_at (t : Z) (s : list ascii) : list poll :=
  map (λ c, Poll t (Some c)) s.

Definition world0 (ps : list poll) : World := mkWorld [] false 0 ps.

Definition T_frame : list ascii := chars "T23.5extra:19.75" ++ [LF].

(** ** Vocabulary of the statements *)

(** The result of a call without the world it leaves behind. *)
Definition outcome {A : Type} (r : result (A * World)) : result A :=
  match r with
  | Done (a, _) => Done a
  | Fault => Fault
  | Pending => Pending
  end.

Definition is_fault {A : Type} (r : result A) : bool :=
  match r with
  | Fault => true
  | _ => false
  end.

(** The call has returned true. *)
Definition succeeded (r : result (bool * float * World)) : bool :=
  match r with
  | Done ((flag, _), _) => flag
  | _ => false
  end.

(** The loop test of an iteration passes, resp. fails, for a call that read
    [startMillis] on entry. *)
Definition on_time (startMillis : Z) (p : poll) : Prop :=
  elapsed (tick p) startMillis < WEATHERBUSLITE_RESPONSE_TIMEOUT.

Definition expired (startMillis : Z) (p : poll) : Prop :=
  WEATHERBUSLITE_RESPONSE_TIMEOUT ≤ elapsed (tick p) startMillis.

(** The bytes handed over by a run of loop iterations, in order. *)
Definition bytes_of (ps : list poll) : list ascii := omap incoming ps.

(** The text that follows the first colon. *)
Fixpoint after_colon (s : list ascii) : list ascii :=
  match s with
  | [] => []
  | c :: s' => if (c =? COLON)%char then s' else after_colon s'
  end.

(** The loop body seen from the byte stream alone: the locals after the
    bytes [bs] if the loop is still running, or the value assigned when the
    body returned true on the way; [None] for a faulting store. *)
Fixpoint feed (expectedType : ascii) (bs : list ascii) (l : Locals)
    : option (Locals + float) :=
  match bs with
  | [] => Some (inl l)
  | b :: bs' =>
      match step expectedType b l with
      | Some l' =>
          match try_finish l' with
          | Some v => Some (inr v)
          | None => feed expectedType bs' l'
          end
      | None => None
      end
  end.

(** The iterations of [step] alone, without the early return. *)
Fixpoint steps (expectedType : ascii) (bs : list ascii) (l : Locals) : option Locals :=
  match bs with
  | [] => Some l
  | b :: bs' =>
      match step expectedType b l with
      | Some l' => steps expectedType bs' l'
      | None => None
      end
  end.

(** The response array holding the bytes [data] from offset 0 and zeros
    after them, and the locals in the three states of the machine. *)
Definition buffer (data : list ascii) : list ascii :=
  data ++ replicate (Z.to_nat sizeof_response - length data) NUL.

Definition reading (data : list ascii) : Locals :=
  mkLocals READ_PAYLOAD (buffer data) (Z.of_nat (length data)).

Definition finished (data : list ascii) : Locals :=
  mkLocals DONE (buffer data) (Z.of_nat (length data)).

(** The calls [sendQuery] makes for the query frame of channel [c]. *)
Definition query_calls (c : ascii) : list Call :=
  [EvBeginTransmission; EvPrint ["?"%char; c]; EvPrintln; EvEndTransmission; EvFlush;
   EvDelay 2].

(** The world once [sendQuery] has returned. *)
Definition sent (c : ascii) (w : World) : World :=
  mkWorld (calls w ++ query_calls c) (receiving w) (ulong (now w + 2)) (polls w).

(** The locals the loop can hold: the initial ones, or a buffer of 1 to 31
    bytes being read or finished. *)
Inductive reachable : Locals → Prop :=
  | reach_wait : reachable locals0
  | reach_read data :
      (1 ≤ length data ≤ 31)%nat → reachable (reading data)
  | reach_done data :
      (1 ≤ length data ≤ 31)%nat → reachable (finished data).

(** ** Reading the class declaration *)

#[global] Instance ctype_eq_dec : EqDecision ctype.
Proof. solve_decision. Defined.

#[global] Instance param_eq_dec : EqDecision param.
Proof. solve_decision. Defined.

#[global] Instance access_eq_dec : EqDecision access.
Proof. solve_decision. Defined.

#[global] Instance member_eq_dec : EqDecision member.
Proof. solve_decision. Defined.






(** ** Decimal literals as the specification describes them

    The text a conversion is expected to accept, written out part by part
    and independently of [atof]: leading white space, an optional sign,
    digits with an optional decimal point, an optional exponent. These
    definitions follow the words of the specification (sections 4.2 and 6)
    and are what [atof] is compared with. *)

Inductive digit : Type := D0 | D1 | D2 | D3 | D4 | D5 | D6 | D7 | D8 | D9.

Definition digit_char (d : digit) : ascii :=
  match d with
  | D0 => "0" | D1 => "1" | D2 => "2" | D3 => "3" | D4 => "4"
  | D5 => "5" | D6 => "6" | D7 => "7" | D8 => "8" | D9 => "9"
  end%char.

Definition digit_num (d : digit) : Z :=
  match d with
  | D0 => 0 | D1 => 1 | D2 => 2 | D3 => 3 | D4 => 4
  | D5 => 5 | D6 => 6 | D7 => 7 | D8 => 8 | D9 => 9
  end.

(** The white-space characters: space, horizontal tab, line feed, vertical
    tab, form feed, carriage return. *)
Inductive blank : Type := Space | HTab | LineFeed | VTab | FormFeed | Return.

Definition blank_char (b : blank) : ascii :=
  match b with
  | Space => "032" | HTab => "009" | LineFeed => "010"
  | VTab => "011" | FormFeed => "012" | Return => "013"
  end%char.

Inductive sign : Type := Plus | Minus.

Definition sign_char (s : sign) : ascii :=
  match s with
  | Plus => "+"
  | Minus => "-"
  end%char.

Record exponent : Type := mkExponent {
  e_upper : bool;              (* written [E] rather than [e] *)
  e_sign : option sign;
  e_digits : list digit
}.

Record literal : Type := mkLiteral {
  n_blanks : list blank;
  n_sign : option sign;
  n_int : list digit;              (* digits before the decimal point *)
  n_frac : option (list digit);    (* the digits after the point, if there is a point *)
  n_exp : option exponent
}.

Definition digits_text (ds : list digit) : list ascii := map digit_char ds.

Definition sign_text (s : option sign) : list ascii :=
  match s with
  | Some sg => [sign_char sg]
  | None => []
  end.

Definition fraction_text (f : option (list digit)) : list ascii :=
  match f with
  | Some ds => "."%char :: digits_text ds
  | None => []
  end.

Definition exponent_text (e : option exponent) : list ascii :=
  match e with
  | Some x =>
      (if e_upper x then "E" else "e")%char
        :: sign_text (e_sign x) ++ digits_text (e_digits x)
  | None => []
  end.

(** The characters of a literal. *)
Definition literal_text (n : literal) : list ascii :=
  map blank_char (n_blanks n) ++ sign_text (n_sign n) ++ digits_text (n_int n)
    ++ fraction_text (n_frac n) ++ exponent_text (n_exp n).

(** The number a run of digits writes, continuing from [acc]. *)
Definition digits_from (acc : Z) (ds : list digit) : Z :=
  fold_left (λ a d, a * 10 + digit_num d) ds acc.

Definition signed (s : option sign) (z : Z) : Z :=
  match s with
  | Some Minus => - z
  | _ => z
  end.

Definition fraction_digits (n : literal) : list digit :=
  match n_frac n with
  | Some ds => ds
  | None => []
  end.

(** There is at least one digit before or after the point. *)
Definition has_mantissa (n : literal) : bool :=
  match n_int n ++ fraction_digits n with
  | [] => false
  | _ :: _ => true
  end.

Definition exponent_value (e : option exponent) : Z :=
  match e with
  | Some x => signed (e_sign x) (digits_from 0 (e_digits x))
  | None => 0
  end.

(** The value of a literal: the digits of the mantissa read as an integer,
    scaled by ten to the exponent less the number of fraction digits, in
    lowest terms; zero when the text holds no mantissa digit. *)
Definition literal_value (n : literal) : float :=
  if has_mantissa n then
    Qred ((signed (n_sign n) (digits_from 0 (n_int n ++ fraction_digits n)) # 1)
          * Qpower (10 # 1)
              (exponent_value (n_exp n) - Z.of_nat (length (fraction_digits n))))
  else 0%Q.

Definition all_digits : list digit := [D0; D1; D2; D3; D4; D5; D6; D7; D8; D9].

Definition all_blanks : list blank := [Space; HTab; LineFeed; VTab; FormFeed; Return].

Definition is_digit_char (x : ascii) : bool :=
  existsb (λ d, (x =? digit_char d)%char) all_digits.

Definition is_blank_char (x : ascii) : bool :=
  existsb (λ b, (x =? blank_char b)%char) all_blanks.

Definition is_sign_char (x : ascii) : bool :=
  (x =? "+")%char || (x =? "-")%char.

Definition has {A : Type} (o : option A) : bool :=
  match o with
  | Some _ => true
  | None => false
  end.

Definition first_is (P : ascii → bool) (s : list ascii) : bool :=
  match s with
  | x :: _ => P x
  | [] => false
  end.

(** The text begins with an exponent: [e] or [E], an optional sign, a digit. *)
Definition starts_exponent (s : list ascii) : bool :=
  match s with
  | x :: t =>
      ((x =? "e")%char || (x =? "E")%char)
      && (first_is is_digit_char t
          || (first_is is_sign_char t && first_is is_digit_char (tail t)))
  | [] => false
  end.

(** The literal [n] ends where [trailing] begins: an exponent that is
    written has digits, and the first trailing character cannot continue
    the number; that is, it is not a digit, not a decimal point unless the
    literal already has a point or an exponent, not the start of an
    exponent unless the literal already has one, and, when the literal is
    empty altogether, not white space or a sign. *)
Definition delimited (n : literal) (trailing : list ascii) : bool :=
  match n_exp n with
  | Some x => match e_digits x with [] => false | _ :: _ => true end
  | None => true
  end
  && negb (first_is is_digit_char trailing)
  && (has (n_frac n) || has (n_exp n)
      || negb (first_is (λ x, (x =? ".")%char) trailing))
  && (has (n_exp n) || negb (starts_exponent trailing))
  && (has (n_sign n) || has_mantissa n || has (n_frac n)
      || has (n_exp n)
      || negb (first_is (λ x, is_blank_char x || is_sign_char x) trailing)).

(** ** The declared operations and the functions that implement them *)










(** * Properties *)

(** ** Sanity checks of the model *)

Example atof_19_75 : atof (chars "19.75") = (79 # 4)%Q.
Proof. reflexivity. Qed.

Example atof_exp : atof (chars " -1.5e+2x") = (-150 # 1)%Q.
Proof. reflexivity. Qed.

Example atof_e_alone : atof (chars "7e") = (7 # 1)%Q.
Proof. reflexivity. Qed.

Example atof_dot : atof (chars ".") = 0%Q.
Proof. reflexivity. Qed.

Example parse_T_frame :
  parseResponse "T" 0%Q (world0 (feed_at 5 (chars "xy" ++ T_frame)))
  = Done ((true, (79 # 4)%Q), mkWorld [EvReceive] true 5 []).
Proof. reflexivity. Qed.

Example parse_timeout :
  parseResponse "T" (3 # 1)%Q (world0 (feed_at 5 (chars "T:1") ++ [Poll 1000 None]))
  = Done ((false, (3 # 1)%Q), mkWorld [EvReceive; EvNoReceive] false 1000 []).
Proof. reflexivity. Qed.

Example parse_pending :
  parseResponse "T" 0%Q (world0 (feed_at 5 (chars "T:1"))) = Pending.
Proof. reflexivity. Qed.

(** ** Tactics *)

Ltac not_elem :=
  let H := fresh "H" in
  intros H;
  repeat (apply elem_of_cons in H as [H|H]; [discriminate H|]);
  exact (proj1 (elem_of_nil _) H).

Ltac all_on_time :=
  repeat (apply Forall_cons; split; [reflexivity|]); apply Forall_nil_2.

(** ** Unfolding the monad *)

Ltac run_monad :=
  unfold parseResponse, sendQuery, scan_loop, millis, delay, begin,
    RS485_begin, RS485_beginTransmission, RS485_print, RS485_println,
    RS485_endTransmission, RS485_flush, RS485_receive, RS485_noReceive, call,
    mbind, M_bind, mret, M_ret; simpl.

Lemma parseResponse_unfold expectedType value w :
  parseResponse expectedType value w =
  match scan expectedType (ulong (now w)) (polls w) locals0 with
  | Done (Some v, t, ps) =>
      Done ((true, v), mkWorld (calls w ++ [EvReceive]) true t ps)
  | Done (None, t, ps) =>
      Done ((false, value), mkWorld ((calls w ++ [EvReceive]) ++ [EvNoReceive]) false t ps)
  | Fault => Fault
  | Pending => Pending
  end.
Proof.
  run_monad.
  destruct (scan expectedType (ulong (now w)) (polls w) locals0)
    as [[[[v|] t] ps]| |]; reflexivity.
Qed.

Lemma sendQuery_unfold query w :
  sendQuery query w =
  Done (tt, mkWorld
    (calls w ++ [EvBeginTransmission; EvPrint (cstr query); EvPrintln;
                 EvEndTransmission; EvFlush; EvDelay WEATHERBUSLITE_GRACE])
    (receiving w) (ulong (now w + WEATHERBUSLITE_GRACE)) (polls w)).
Proof.
  run_monad. repeat rewrite <- app_assoc. reflexivity.
Qed.

(** ** The scan loop and the byte stream *)

Lemma on_time_test s p :
  on_time s p → (elapsed (tick p) s <? WEATHERBUSLITE_RESPONSE_TIMEOUT) = true.
Proof. unfold on_time. intros H. apply Z.ltb_lt. exact H. Qed.

Lemma expired_test s p :
  expired s p → (elapsed (tick p) s <? WEATHERBUSLITE_RESPONSE_TIMEOUT) = false.
Proof. unfold expired. intros H. apply Z.ltb_ge. exact H. Qed.

Lemma scan_running X s pre rest l l' :
  Forall (on_time s) pre →
  feed X (bytes_of pre) l = Some (inl l') →
  scan X s (pre ++ rest) l = scan X s rest l'.
Proof.
  intros Hpre. revert l.
  induction Hpre as [|p pre Hp _ IH]; intros l Hfeed; simpl in *.
  - congruence.
  - rewrite (on_time_test _ _ Hp).
    unfold bytes_of in Hfeed. simpl in Hfeed.
    destruct (incoming p) as [c|]; simpl in Hfeed.
    + destruct (step X c l) as [l1|]; [|discriminate].
      destruct (try_finish l1); [discriminate|].
      apply IH. exact Hfeed.
    + apply IH. exact Hfeed.
Qed.

Lemma scan_returned X s pre rest l v :
  Forall (on_time s) pre →
  feed X (bytes_of pre) l = Some (inr v) →
  ∃ t ps, scan X s (pre ++ rest) l = Done (Some v, t, ps).
Proof.
  intros Hpre. revert l.
  induction Hpre as [|p pre Hp _ IH]; intros l Hfeed; simpl in *.
  - discriminate.
  - rewrite (on_time_test _ _ Hp).
    unfold bytes_of in Hfeed. simpl in Hfeed.
    destruct (incoming p) as [c|]; simpl in Hfeed.
    + destruct (step X c l) as [l1|]; [|discriminate].
      destruct (try_finish l1) as [v1|].
      * injection Hfeed as ->. eauto.
      * apply IH. exact Hfeed.
    + apply IH. exact Hfeed.
Qed.

Lemma scan_expired X s p rest l :
  expired s p → scan X s (p :: rest) l = Done (None, ulong (tick p), rest).
Proof. intros H. simpl. rewrite (expired_test _ _ H). reflexivity. Qed.

(** ** The response buffer *)

Lemma length_buffer data :
  (length data ≤ 32)%nat → length (buffer data) = 32%nat.
Proof.
  intros H. unfold buffer. rewrite length_app, length_replicate.
  change (Z.to_nat sizeof_response) with 32%nat. lia.
Qed.

Lemma buffer_split data :
  (length data ≤ 31)%nat →
  buffer data = data ++ NUL :: replicate (31 - length data) NUL.
Proof.
  intros H. unfold buffer. change (Z.to_nat sizeof_response) with 32%nat.
  replace (32 - length data)%nat with (S (31 - length data)) by lia.
  reflexivity.
Qed.

Lemma store_append data c :
  (length data ≤ 31)%nat →
  store (buffer data) (Z.of_nat (length data)) c = Some (buffer (data ++ [c])).
Proof.
  intros H. unfold store. rewrite length_buffer by lia.
  replace ((0 <=? Z.of_nat (length data)) && (Z.of_nat (length data) <? Z.of_nat 32))
    with true by (symmetry; apply andb_true_iff; split; [apply Z.leb_le|apply Z.ltb_lt]; lia).
  rewrite Nat2Z.id. f_equal.
  rewrite buffer_split by lia.
  rewrite insert_app_r_alt by lia. rewrite Nat.sub_diag. simpl.
  unfold buffer. rewrite <- app_assoc. simpl. do 2 f_equal.
  rewrite length_app. simpl. change (Z.to_nat sizeof_response) with 32%nat.
  f_equal. lia.
Qed.

Lemma store_terminator data :
  (length data ≤ 31)%nat →
  store (buffer data) (Z.of_nat (length data)) NUL = Some (buffer data).
Proof.
  intros H. unfold store. rewrite length_buffer by lia.
  replace ((0 <=? Z.of_nat (length data)) && (Z.of_nat (length data) <? Z.of_nat 32))
    with true by (symmetry; apply andb_true_iff; split; [apply Z.leb_le|apply Z.ltb_lt]; lia).
  rewrite Nat2Z.id. f_equal.
  rewrite buffer_split by lia.
  rewrite insert_app_r_alt by lia. rewrite Nat.sub_diag. reflexivity.
Qed.

Lemma buffer_terminated data :
  (length data ≤ 31)%nat → buffer data !! length data = Some NUL.
Proof.
  intros H. rewrite buffer_split by lia. apply list_lookup_middle. reflexivity.
Qed.

Lemma locals0_buffer : locals0 = mkLocals WAIT_FOR_START (buffer []) 0.
Proof. reflexivity. Qed.

(** ** The transitions of the state machine *)

Section Transitions.

Variable X : ascii.

Lemma step_wait_other c :
  c ≠ X → step X c locals0 = Some locals0.
Proof.
  intros H. unfold step. simpl state.
  apply Ascii.eqb_neq in H. rewrite H. reflexivity.
Qed.

Lemma step_wait_start : step X X locals0 = Some (reading [X]).
Proof.
  unfold step. simpl state. rewrite Ascii.eqb_refl.
  rewrite locals0_buffer. simpl response. simpl index.
  change 0 with (Z.of_nat (length (@nil ascii))).
  rewrite store_append by (simpl; lia). reflexivity.
Qed.

Lemma step_read_append c data :
  (length data < 31)%nat → c ≠ LF →
  step X c (reading data) = Some (reading (data ++ [c])).
Proof.
  intros Hlen Hc. unfold step, reading. simpl state. simpl response. simpl index.
  apply Ascii.eqb_neq in Hc. rewrite Hc. simpl.
  replace (sizeof_response - 1 <=? Z.of_nat (length data)) with false
    by (symmetry; apply Z.leb_gt; unfold sizeof_response; lia).
  rewrite store_append by lia. simpl.
  rewrite length_app. simpl. do 2 f_equal. lia.
Qed.

Lemma step_read_finish c data :
  (length data ≤ 31)%nat → c = LF ∨ length data = 31%nat →
  step X c (reading data) = Some (finished data).
Proof.
  intros Hlen Hc. unfold step, reading. simpl state. simpl response. simpl index.
  replace ((c =? LF)%char || (sizeof_response - 1 <=? Z.of_nat (length data))) with true.
  - rewrite store_terminator by lia. reflexivity.
  - symmetry. apply orb_true_iff. destruct Hc as [->|Hc].
    + left. apply Ascii.eqb_refl.
    + right. apply Z.leb_le. unfold sizeof_response. lia.
Qed.

Lemma step_finished c data : step X c (finished data) = Some (finished data).
Proof. reflexivity. Qed.

End Transitions.

Lemma try_finish_reading data : try_finish (reading data) = None.
Proof. reflexivity. Qed.

(** ** Looking for the colon in the buffer *)

Lemma strchr_zeros data rest :
  strchr (data ++ NUL :: rest) COLON = strchr data COLON.
Proof.
  induction data as [|x data IH]; simpl.
  - reflexivity.
  - destruct (x =? COLON)%char; [reflexivity|].
    destruct (x =? NUL)%char; [reflexivity|].
    rewrite IH. reflexivity.
Qed.

Lemma strchr_buffer data :
  (length data ≤ 31)%nat → strchr (buffer data) COLON = strchr data COLON.
Proof.
  intros H. rewrite buffer_split by lia. apply strchr_zeros.
Qed.

Lemma cstr_zeros s n : cstr (s ++ replicate n NUL) = cstr s.
Proof.
  induction s as [|x s IH]; simpl.
  - destruct n; reflexivity.
  - destruct (x =? NUL)%char; [reflexivity|]. rewrite IH. reflexivity.
Qed.

Lemma strchr_lt s c p : strchr s c = Some p → (p < length s)%nat.
Proof.
  revert p. induction s as [|x s IH]; simpl; intros p H.
  - discriminate.
  - destruct (x =? c)%char.
    + injection H as <-. lia.
    + destruct (x =? NUL)%char; [discriminate|].
      destruct (strchr s c) as [q|]; simpl in H; [|discriminate].
      injection H as <-. specialize (IH q eq_refl). lia.
Qed.

Lemma try_finish_finished data :
  (length data ≤ 31)%nat →
  try_finish (finished data) =
  match strchr data COLON with
  | Some colonPos => Some (atof (cstr (drop (S colonPos) data)))
  | None => None
  end.
Proof.
  intros H. unfold try_finish, finished. simpl state. simpl response.
  rewrite strchr_buffer by lia.
  destruct (strchr data COLON) as [p|] eqn:Hp; [|reflexivity].
  apply strchr_lt in Hp. unfold buffer.
  rewrite drop_app_le by lia. rewrite cstr_zeros. reflexivity.
Qed.

Lemma strchr_first_colon pre post :
  NUL ∉ pre →
  ∃ p, strchr (pre ++ COLON :: post) COLON = Some p
       ∧ drop (S p) (pre ++ COLON :: post) = after_colon (pre ++ COLON :: post).
Proof.
  induction pre as [|x pre IH]; intros Hnul; simpl.
  - exists 0%nat. split; reflexivity.
  - destruct (x =? COLON)%char eqn:Hx.
    + exists 0%nat. split; reflexivity.
    + destruct (x =? NUL)%char eqn:Hz.
      * apply Ascii.eqb_eq in Hz. subst x. exfalso. apply Hnul. left.
      * destruct IH as [p [Hp Hd]].
        { intros Hin. apply Hnul. right. exact Hin. }
        exists (S p). rewrite Hp. split; [reflexivity|]. exact Hd.
Qed.

Lemma strchr_absent s : COLON ∉ s → strchr s COLON = None.
Proof.
  induction s as [|x s IH]; intros H; simpl.
  - reflexivity.
  - destruct (x =? COLON)%char eqn:Hx.
    + apply Ascii.eqb_eq in Hx. subst x. exfalso. apply H. left.
    + destruct (x =? NUL)%char; [reflexivity|].
      rewrite IH; [reflexivity|]. intros Hin. apply H. right. exact Hin.
Qed.

(** ** The byte stream, phase by phase *)

Section Stream.

Variable X : ascii.

Lemma feed_junk junk bs :
  X ∉ junk → feed X (junk ++ bs) locals0 = feed X bs locals0.
Proof.
  induction junk as [|b junk IH]; intros H; simpl.
  - reflexivity.
  - apply not_elem_of_cons in H as [Hb Hjunk].
    rewrite step_wait_other by congruence.
    change (try_finish locals0) with (@None float). apply IH. exact Hjunk.
Qed.

Lemma feed_start bs : feed X (X :: bs) locals0 = feed X bs (reading [X]).
Proof. simpl. rewrite step_wait_start. reflexivity. Qed.

Lemma feed_partial body bs data :
  LF ∉ body → (length data + length body ≤ 31)%nat →
  feed X (body ++ bs) (reading data) = feed X bs (reading (data ++ body)).
Proof.
  revert data. induction body as [|b body IH]; intros data Hlf Hlen; simpl.
  - rewrite app_nil_r. reflexivity.
  - apply not_elem_of_cons in Hlf as [Hb Hbody]. simpl in Hlen.
    rewrite step_read_append by (lia || congruence).
    rewrite try_finish_reading.
    rewrite IH by (try rewrite length_app; simpl; (lia || assumption)).
    rewrite <- app_assoc. reflexivity.
Qed.

Lemma feed_finished bs data :
  try_finish (finished data) = None →
  feed X bs (finished data) = Some (inl (finished data)).
Proof.
  intros H. induction bs as [|b bs IH]; simpl.
  - reflexivity.
  - change (step X b (finished data)) with (Some (finished data)).
    simpl. rewrite H. exact IH.
Qed.

Lemma feed_finish t bs data :
  (length data ≤ 31)%nat → t = LF ∨ length data = 31%nat →
  feed X (t :: bs) (reading data) =
  match try_finish (finished data) with
  | Some v => Some (inr v)
  | None => Some (inl (finished data))
  end.
Proof.
  intros Hlen Ht. simpl. rewrite step_read_finish by assumption.
  destruct (try_finish (finished data)) eqn:Hv; [reflexivity|].
  apply feed_finished. exact Hv.
Qed.

Lemma elem_of_take_inv (x : ascii) n l : x ∈ take n l → x ∈ l.
Proof.
  intros H. apply elem_of_take in H as [i [Hi _]].
  apply list_elem_of_lookup. eauto.
Qed.

(** A frame whose text [body] holds no line feed, followed by a line feed:
    the buffer ends up with the first 31 bytes of the frame. *)
Lemma feed_frame body bs :
  LF ∉ body →
  feed X (X :: body ++ LF :: bs) locals0 =
  match try_finish (finished (take 31 (X :: body))) with
  | Some v => Some (inr v)
  | None => Some (inl (finished (take 31 (X :: body))))
  end.
Proof.
  intros Hlf. rewrite feed_start.
  rewrite <- (take_drop 30 body) at 1. rewrite <- app_assoc.
  assert (Hlen : (length (take 31 (X :: body)) ≤ 31)%nat)
    by (rewrite length_take; lia).
  rewrite feed_partial.
  - change ([X] ++ take 30 body) with (take 31 (X :: body)).
    destruct (drop 30 body) as [|t more] eqn:Hdrop; simpl app.
    + apply feed_finish; [exact Hlen | left; reflexivity].
    + apply feed_finish; [exact Hlen |].
      right. assert (30 < length body)%nat.
      { destruct (Nat.lt_ge_cases 30 (length body)) as [Hlt|Hge]; [exact Hlt|].
        rewrite drop_ge in Hdrop by lia. discriminate. }
      change (take 31 (X :: body)) with (X :: take 30 body).
      simpl length. rewrite length_take. lia.
  - intros Hin. apply Hlf. eapply elem_of_take_inv. exact Hin.
  - simpl length. rewrite length_take. lia.
Qed.

End Stream.

(** ** The two exits of parseResponse *)

Lemma parse_false X value w pre p rest l :
  polls w = pre ++ p :: rest →
  Forall (on_time (ulong (now w))) pre →
  expired (ulong (now w)) p →
  feed X (bytes_of pre) locals0 = Some (inl l) →
  parseResponse X value w =
  Done ((false, value),
        mkWorld (calls w ++ [EvReceive; EvNoReceive]) false (ulong (tick p)) rest).
Proof.
  intros Hpolls Hpre Hp Hfeed. rewrite parseResponse_unfold, Hpolls.
  rewrite (scan_running _ _ _ _ _ _ Hpre Hfeed).
  rewrite (scan_expired _ _ _ _ _ Hp).
  rewrite <- app_assoc. reflexivity.
Qed.

Lemma parse_true X value w pre rest v :
  polls w = pre ++ rest →
  Forall (on_time (ulong (now w))) pre →
  feed X (bytes_of pre) locals0 = Some (inr v) →
  ∃ t ps, parseResponse X value w =
          Done ((true, v), mkWorld (calls w ++ [EvReceive]) true t ps).
Proof.
  intros Hpolls Hpre Hfeed. rewrite parseResponse_unfold, Hpolls.
  destruct (scan_returned X _ _ rest _ _ Hpre Hfeed) as [t [ps Hscan]].
  rewrite Hscan. eauto.
Qed.

Lemma feed_steps X bs l l' :
  feed X bs l = Some (inl l') → steps X bs l = Some l'.
Proof.
  revert l. induction bs as [|b bs IH]; intros l H; simpl in *.
  - congruence.
  - destruct (step X b l) as [l1|]; [|discriminate].
    destruct (try_finish l1); [discriminate|]. apply IH. exact H.
Qed.

Lemma try_finish_no_colon data :
  (length data ≤ 31)%nat → COLON ∉ data → try_finish (finished data) = None.
Proof.
  intros Hlen H. rewrite try_finish_finished by exact Hlen.
  rewrite strchr_absent by exact H. reflexivity.
Qed.

(** ** Frame extraction *)

(** C1 (as amended). For a channel code [c] other than NUL: when the bytes
    read while the time budget lasts are bytes different from [c], then [c],
    a payload of at most 29 bytes holding neither NUL nor line feed, a
    colon, a literal without line feed and a line feed, parseResponse
    returns true and assigns the conversion of the text that follows the
    first colon of the buffered frame, the buffered frame being the first
    31 bytes of code, payload, colon and literal. *)
Theorem parseResponse_frame_value c value w pre rest junk payload literal :
  polls w = pre ++ rest →
  Forall (on_time (ulong (now w))) pre →
  bytes_of pre = junk ++ c :: payload ++ COLON :: literal ++ [LF] →
  c ∉ junk →
  c ≠ NUL →
  NUL ∉ payload →
  LF ∉ payload →
  (length payload ≤ 29)%nat →
  LF ∉ literal →
  outcome (parseResponse c value w) =
  Done (true, atof (cstr (after_colon (take 31 (c :: payload ++ COLON :: literal))))).
Proof.
  intros Hpolls Hpre Hbytes Hjunk Hc Hnul Hlf Hlen Hlit.
  assert (Hfeed : feed c (bytes_of pre) locals0 =
    Some (inr (atof (cstr (after_colon (take 31 (c :: payload ++ COLON :: literal))))))).
  { rewrite Hbytes, feed_junk by exact Hjunk.
    replace (c :: payload ++ COLON :: literal ++ [LF])
      with (c :: (payload ++ COLON :: literal) ++ LF :: [])
      by (rewrite <- app_assoc; reflexivity).
    rewrite feed_frame.
    2:{ intros Hin. apply elem_of_app in Hin as [Hin|Hin]; [exact (Hlf Hin)|].
        apply elem_of_cons in Hin as [Hin|Hin]; [discriminate|exact (Hlit Hin)]. }
    rewrite try_finish_finished by (rewrite length_take; lia).
    assert (Hsplit : take 31 (c :: payload ++ COLON :: literal) =
                     (c :: payload) ++ COLON :: take (29 - length payload) literal).
    { change (take 31 (c :: payload ++ COLON :: literal))
        with (c :: take 30 (payload ++ COLON :: literal)).
      rewrite take_app_ge by lia.
      replace (30 - length payload)%nat with (S (29 - length payload)) by lia.
      reflexivity. }
    rewrite Hsplit.
    destruct (strchr_first_colon (c :: payload) (take (29 - length payload) literal))
      as [pos [Hpos Hdrop]].
    { intros Hin. apply elem_of_cons in Hin as [Hin|Hin]; [congruence|exact (Hnul Hin)]. }
    rewrite Hpos, Hdrop. reflexivity. }
  destruct (parse_true c value w pre rest _ Hpolls Hpre Hfeed) as [t [ps Hrun]].
  rewrite Hrun. reflexivity.
Qed.

(** ** Frames without a colon *)

(** C3. A frame that is complete, by a line feed after at most 30 payload
    bytes or by a payload of 30 bytes that fills the buffer, and whose
    buffered bytes hold no colon makes parseResponse return false once the
    time budget is used up. When a byte follows the frame text, line feed
    or not, the machine is in state DONE with the terminated buffer: the
    full buffer completes the frame like a line feed does. *)
Theorem parseResponse_missing_colon c value w pre p rest junk body tail :
  polls w = pre ++ p :: rest →
  Forall (on_time (ulong (now w))) pre →
  expired (ulong (now w)) p →
  bytes_of pre = junk ++ c :: body ++ tail →
  c ∉ junk →
  LF ∉ body →
  COLON ∉ c :: body →
  ((length body ≤ 30)%nat ∧ head tail = Some LF) ∨ length body = 30%nat →
  parseResponse c value w =
    Done ((false, value),
          mkWorld (calls w ++ [EvReceive; EvNoReceive]) false (ulong (tick p)) rest)
  ∧ match tail with
    | [] => True
    | b :: _ =>
        steps c (junk ++ c :: body ++ [b]) locals0 =
        Some (mkLocals DONE (buffer (c :: body)) (Z.of_nat (length (c :: body))))
    end.
Proof.
  intros Hpolls Hpre Hp Hbytes Hjunk Hlf Hcolon Hdone.
  assert (Hlen : (length body ≤ 30)%nat) by (destruct Hdone as [[H _]|H]; lia).
  assert (Hto : ∀ bs, feed c (junk ++ c :: body ++ bs) locals0 =
                      feed c bs (reading (c :: body))).
  { intros bs. rewrite feed_junk by exact Hjunk. rewrite feed_start.
    rewrite feed_partial by (simpl; (assumption || lia)). reflexivity. }
  assert (Hend : ∀ b bs, b :: bs = tail →
            feed c (b :: bs) (reading (c :: body)) = Some (inl (finished (c :: body)))).
  { intros b bs Htail. rewrite feed_finish.
    - rewrite try_finish_no_colon by (simpl; (assumption || lia)). reflexivity.
    - simpl. lia.
    - destruct Hdone as [[_ Hhd]|H30].
      + left. rewrite <- Htail in Hhd. simpl in Hhd. congruence.
      + right. simpl. lia. }
  split.
  - assert (∃ l, feed c (bytes_of pre) locals0 = Some (inl l)) as [l Hfeed].
    { rewrite Hbytes, Hto. destruct tail as [|b bs].
      + eexists. reflexivity.
      + eexists. apply Hend. reflexivity. }
    exact (parse_false c value w pre p rest l Hpolls Hpre Hp Hfeed).
  - destruct tail as [|b bs]; [exact I|].
    apply feed_steps. rewrite Hto.
    rewrite feed_finish.
    + rewrite try_finish_no_colon by (simpl; (assumption || lia)). reflexivity.
    + simpl. lia.
    + destruct Hdone as [[_ Hhd]|H30].
      * left. simpl in Hhd. congruence.
      * right. simpl. lia.
Qed.

(** ** Timeout *)

(** C4. When the time budget runs out before a frame is complete,
    parseResponse returns false: whether no byte equal to the requested
    code was read at all ([partial = []]) or a frame was begun and not yet
    terminated, whether or not the iterations delivered bytes, and
    whatever the expiring iteration itself has waiting. The loop stops at
    the first iteration whose test fails, the observations after it are
    left untouched, and the caller's value is returned as it was. *)
Theorem parseResponse_timeout X value w pre p rest junk partial body :
  polls w = pre ++ p :: rest →
  Forall (on_time (ulong (now w))) pre →
  expired (ulong (now w)) p →
  bytes_of pre = junk ++ partial →
  X ∉ junk →
  partial = [] ∨ (partial = X :: body ∧ (LF ∉ body) ∧ (length body ≤ 30)%nat) →
  parseResponse X value w =
  Done ((false, value),
        mkWorld (calls w ++ [EvReceive; EvNoReceive]) false (ulong (tick p)) rest).
Proof.
  intros Hpolls Hpre Hp Hbytes Hjunk Hpartial.
  assert (∃ l, feed X (bytes_of pre) locals0 = Some (inl l)) as [l Hfeed].
  { rewrite Hbytes, feed_junk by exact Hjunk.
    destruct Hpartial as [->|[-> [Hlf Hlen]]].
    - eexists. reflexivity.
    - rewrite feed_start. rewrite <- (app_nil_r body).
      rewrite feed_partial by (simpl; (assumption || lia)).
      eexists. reflexivity. }
  exact (parse_false X value w pre p rest l Hpolls Hpre Hp Hfeed).
Qed.

Lemma parseResponse_frame_value_witness :
  outcome (parseResponse "T" 0%Q (world0 (feed_at 5 (chars "xy" ++ T_frame))))
  = Done (true, (79 # 4)%Q).
Proof.
  apply (parseResponse_frame_value "T" 0%Q
           (world0 (feed_at 5 (chars "xy" ++ T_frame)))
           (feed_at 5 (chars "xy" ++ T_frame)) []
           (chars "xy") (chars "23.5extra") (chars "19.75")).
  - reflexivity.
  - all_on_time.
  - reflexivity.
  - not_elem.
  - discriminate.
  - not_elem.
  - not_elem.
  - simpl. lia.
  - not_elem.
Defined.

(** C1 as stated fails when the payload is long. The stream below is the
    code T, 30 payload bytes, a colon, the literal 19.75 and a line feed,
    all read in time; the colon arrives when the buffer is full and is
    dropped, the frame is closed without a colon, and the call ends in a
    timeout with false. *)
Lemma parseResponse_long_payload :
  chars "T-canopy-temperature-in-celsius:19.75" ++ [LF]
  = [] ++ "T"%char :: chars "-canopy-temperature-in-celsius"
       ++ COLON :: chars "19.75" ++ [LF]
  ∧ Forall (on_time 0)
           (feed_at 5 (chars "T-canopy-temperature-in-celsius:19.75" ++ [LF]))
  ∧ parseResponse "T" 0%Q
      (world0 (feed_at 5 (chars "T-canopy-temperature-in-celsius:19.75" ++ [LF])
               ++ [Poll 1000 None]))
    = Done ((false, 0%Q), mkWorld [EvReceive; EvNoReceive] false 1000 []).
Proof.
  split; [reflexivity|]. split; [all_on_time|]. vm_compute. reflexivity.
Qed.

Lemma parseResponse_missing_colon_witness :
  parseResponse "T" (7 # 1)%Q
    (world0 (feed_at 5 (chars "xT23.5" ++ [LF] ++ chars ":9") ++ [Poll 1000 None]))
  = Done ((false, (7 # 1)%Q), mkWorld [EvReceive; EvNoReceive] false 1000 [])
  ∧ steps "T" (chars "x" ++ "T"%char :: chars "23.5" ++ [LF]) locals0
    = Some (mkLocals DONE (buffer (chars "T23.5")) 5).
Proof.
  apply (parseResponse_missing_colon "T" (7 # 1)%Q
           (world0 (feed_at 5 (chars "xT23.5" ++ [LF] ++ chars ":9")
                    ++ [Poll 1000 None]))
           (feed_at 5 (chars "xT23.5" ++ [LF] ++ chars ":9"))
           (Poll 1000 None) []
           (chars "x") (chars "23.5") (LF :: chars ":9")).
  - reflexivity.
  - all_on_time.
  - intros H. discriminate H.
  - reflexivity.
  - not_elem.
  - not_elem.
  - not_elem.
  - left. split; [simpl; lia | reflexivity].
Defined.

(** The full buffer: the code and 30 further bytes, nothing after them. *)
Example parse_full_buffer :
  parseResponse "T" (7 # 1)%Q
    (world0 (feed_at 5 (chars "T123456789012345678901234567890") ++ [Poll 1000 None]))
  = Done ((false, (7 # 1)%Q), mkWorld [EvReceive; EvNoReceive] false 1000 []).
Proof. reflexivity. Qed.

Lemma parseResponse_timeout_witness :
  parseResponse "T" (7 # 1)%Q
    (world0 ([Poll 0 None; Poll 400 (Some "a"%char); Poll 401 (Some "T"%char);
              Poll 402 (Some ":"%char); Poll 700 None; Poll 999 (Some "9"%char);
              Poll 1000 (Some LF); Poll 1001 None]))
  = Done ((false, (7 # 1)%Q),
          mkWorld [EvReceive; EvNoReceive] false 1000 [Poll 1001 None]).
Proof.
  apply (parseResponse_timeout "T" (7 # 1)%Q
           (world0 ([Poll 0 None; Poll 400 (Some "a"%char); Poll 401 (Some "T"%char);
                     Poll 402 (Some ":"%char); Poll 700 None; Poll 999 (Some "9"%char);
                     Poll 1000 (Some LF); Poll 1001 None]))
           [Poll 0 None; Poll 400 (Some "a"%char); Poll 401 (Some "T"%char);
            Poll 402 (Some ":"%char); Poll 700 None; Poll 999 (Some "9"%char)]
           (Poll 1000 (Some LF)) [Poll 1001 None]
           (chars "a") (chars "T:9") (chars ":9")).
  - reflexivity.
  - all_on_time.
  - intros H. discriminate H.
  - reflexivity.
  - not_elem.
  - right. split; [reflexivity|]. split; [not_elem | simpl; lia].
Defined.

(** No byte equal to the requested code at all, on a clock that wraps
    around during the call. *)
Example parse_timeout_wrap :
  parseResponse "X" 0%Q
    (mkWorld [] false 4294967000
       [Poll 4294967290 (Some "T"%char); Poll 500 (Some ":"%char); Poll 703 None;
        Poll 704 (Some "X"%char)])
  = Done ((false, 0%Q),
          mkWorld [EvReceive; EvNoReceive] false 704 []).
Proof. reflexivity. Qed.

(** ** Queries: the encoder followed by the parser *)

Lemma query_unfold query c value w :
  (sendQuery query ;; parseResponse c value) w =
  parseResponse c value
    (mkWorld (calls w ++ [EvBeginTransmission; EvPrint (cstr query); EvPrintln;
                          EvEndTransmission; EvFlush; EvDelay WEATHERBUSLITE_GRACE])
             (receiving w) (ulong (now w + WEATHERBUSLITE_GRACE)) (polls w)).
Proof.
  change ((sendQuery query ;; parseResponse c value) w)
    with (match sendQuery query w with
          | Done (_, w') => parseResponse c value w'
          | Fault => Fault
          | Pending => Pending
          end).
  rewrite sendQuery_unfold. reflexivity.
Qed.

Lemma queryCustom_unfold c value w :
  c ≠ NUL → queryCustom c value w = parseResponse c value (sent c w).
Proof.
  intros Hc. unfold queryCustom. rewrite query_unfold.
  unfold sent, query_calls. simpl cstr.
  apply Ascii.eqb_neq in Hc. rewrite Hc. reflexivity.
Qed.

Lemma parseResponse_calls c value w :
  match parseResponse c value w with
  | Done (_, w') => ∃ tl, calls w' = calls w ++ EvReceive :: tl
  | _ => True
  end.
Proof.
  rewrite parseResponse_unfold.
  destruct (scan c (ulong (now w)) (polls w) locals0) as [[[[v|] t] ps]| |];
    simpl; try exact I.
  - exists []. reflexivity.
  - exists [EvNoReceive]. rewrite <- app_assoc. reflexivity.
Qed.

(** The receive path is enabled on return exactly when the call reports
    success. *)
Lemma parseResponse_receiving c value w flag value' w' :
  parseResponse c value w = Done ((flag, value'), w') → receiving w' = flag.
Proof.
  rewrite parseResponse_unfold.
  destruct (scan c (ulong (now w)) (polls w) locals0) as [[[[v|] t] ps]| |];
    intros H; inversion H; reflexivity.
Qed.

(** With the code NUL the query text ends after the question mark. *)
Lemma sendQuery_nul w :
  sendQuery ["?"%char; NUL; NUL] w =
  Done (tt, mkWorld (calls w ++ [EvBeginTransmission; EvPrint ["?"%char]; EvPrintln;
                                 EvEndTransmission; EvFlush; EvDelay 2])
                    (receiving w) (ulong (now w + 2)) (polls w)).
Proof. apply sendQuery_unfold. Qed.

(** C6. For every channel code [c] (any character but the terminator NUL)
    sendQuery opens a transmit session, writes the two bytes ['?'] and [c],
    then the line terminator, closes the session, flushes and holds for the
    grace interval of 2; every query operation, the generic one and the
    nine fixed ones, runs the parser in the world that results, and the
    first call the parser makes is the one that enables the receive path. *)
Theorem sendQuery_frame c value w :
  c ≠ NUL →
  sendQuery ["?"%char; c; NUL] w = Done (tt, sent c w)
  ∧ queryCustom c value w = parseResponse c value (sent c w)
  ∧ Forall (λ cf, snd cf value w = parseResponse (fst cf) value (sent (fst cf) w))
           fixed_queries
  ∧ match parseResponse c value (sent c w) with
    | Done (_, w') => ∃ tl, calls w' = calls w ++ query_calls c ++ EvReceive :: tl
    | _ => True
    end.
Proof.
  intros Hc. repeat split.
  - rewrite sendQuery_unfold. unfold sent, query_calls. simpl cstr.
    apply Ascii.eqb_neq in Hc. rewrite Hc. reflexivity.
  - apply queryCustom_unfold. exact Hc.
  - unfold fixed_queries.
    repeat (apply Forall_cons; split; [apply query_unfold|]). apply Forall_nil_2.
  - pose proof (parseResponse_calls c value (sent c w)) as H.
    destruct (parseResponse c value (sent c w)) as [[r w']| |]; try exact I.
    destruct H as [tl H]. exists tl. rewrite H. unfold sent. simpl calls.
    rewrite <- app_assoc. reflexivity.
Qed.

Lemma sendQuery_frame_witness :
  sendQuery (chars "?T" ++ [NUL]) (world0 []) = Done (tt, sent "T" (world0 []))
  ∧ queryCustom "T" 0%Q (world0 []) = parseResponse "T" 0%Q (sent "T" (world0 []))
  ∧ Forall (λ cf, snd cf 0%Q (world0 []) =
                  parseResponse (fst cf) 0%Q (sent (fst cf) (world0 [])))
           fixed_queries
  ∧ match parseResponse "T" 0%Q (sent "T" (world0 [])) with
    | Done (_, w') =>
        ∃ tl, calls w' = calls (world0 []) ++ query_calls "T" ++ EvReceive :: tl
    | _ => True
    end.
Proof.
  apply (sendQuery_frame "T" 0%Q (world0 [])). discriminate.
Defined.

(** C7. Each of the nine fixed-channel operations is the generic operation
    at its channel code: for every value of the output parameter and every
    world, hence every incoming byte stream, the two give the same calls
    on the bus, the same flag and the same value. The generic operation
    with code Z and response [Z:5.2] followed by a line feed succeeds with
    the value 5.2. *)
Theorem fixed_queries_are_queryCustom value w :
  queryTemp value w = queryCustom "T" value w
  ∧ queryHumidity value w = queryCustom "H" value w
  ∧ queryPressure value w = queryCustom "P" value w
  ∧ queryAirQuality value w = queryCustom "A" value w
  ∧ queryUV value w = queryCustom "U" value w
  ∧ queryRainfall value w = queryCustom "R" value w
  ∧ queryWindSpeed value w = queryCustom "W" value w
  ∧ queryWindDirection value w = queryCustom "D" value w
  ∧ queryCanopyTemperature value w = queryCustom "C" value w
  ∧ queryCustom "Z" value (world0 (feed_at 5 (chars "Z:5.2" ++ [LF])))
    = Done ((true, (26 # 5)%Q),
            mkWorld (query_calls "Z" ++ [EvReceive]) true 5 []).
Proof.
  repeat split.
Qed.

(** ** Failure leaves the output parameter alone *)

Lemma parseResponse_false_value c value w value' w' :
  parseResponse c value w = Done ((false, value'), w') → value' = value.
Proof.
  rewrite parseResponse_unfold.
  destruct (scan c (ulong (now w)) (polls w) locals0) as [[[[v|] t] ps]| |];
    intros H; inversion H; reflexivity.
Qed.

(** C9. When parseResponse, the generic query or one of the nine fixed
    queries returns false, the value returned for the output parameter is
    the value that was passed in. *)
Theorem failed_query_keeps_value c f value w value' w' :
  f ∈ parseResponse c :: queryCustom c :: (snd <$> fixed_queries) →
  f value w = Done ((false, value'), w') →
  value' = value.
Proof.
  intros Hf Hrun.
  assert (Hq : ∀ query c0, f = (λ v, sendQuery query ;; parseResponse c0 v) →
               value' = value).
  { intros query c0 ->. rewrite query_unfold in Hrun.
    exact (parseResponse_false_value _ _ _ _ _ Hrun). }
  apply elem_of_cons in Hf as [->|Hf].
  { exact (parseResponse_false_value _ _ _ _ _ Hrun). }
  apply elem_of_cons in Hf as [->|Hf].
  { exact (Hq _ _ eq_refl). }
  simpl in Hf.
  repeat (apply elem_of_cons in Hf as [->|Hf]; [exact (Hq _ _ eq_refl)|]).
  exfalso. exact (proj1 (elem_of_nil _) Hf).
Qed.

Lemma failed_query_keeps_value_witness :
  queryHumidity (7 # 2)%Q (world0 (feed_at 5 (chars "H55.1") ++ [Poll 1002 None]))
  = Done ((false, (7 # 2)%Q),
          mkWorld (query_calls "H" ++ [EvReceive; EvNoReceive]) false 1002 [])
  ∧ (7 # 2)%Q = (7 # 2)%Q.
Proof.
  split; [reflexivity|].
  apply (failed_query_keeps_value "H" queryHumidity (7 # 2)%Q
           (world0 (feed_at 5 (chars "H55.1") ++ [Poll 1002 None]))
           (7 # 2)%Q
           (mkWorld (query_calls "H" ++ [EvReceive; EvNoReceive]) false 1002 [])).
  - apply elem_of_cons. right. apply elem_of_cons. right.
    apply elem_of_cons. right. apply elem_of_cons. left. reflexivity.
  - reflexivity.
Defined.

(** ** Numeric tolerance *)

(** A text that does not begin with white space, a sign, a digit or a
    decimal point converts to zero. *)
Lemma atof_nothing_numeric c s :
  isspace c = false → isdigit c = false →
  c ≠ "-"%char → c ≠ "+"%char → c ≠ "."%char →
  atof (c :: s) = 0%Q.
Proof.
  intros Hsp Hdg Hm Hp Hd. unfold atof. simpl skip_spaces. rewrite Hsp.
  unfold read_sign.
  apply Ascii.eqb_neq in Hm, Hp, Hd. rewrite Hm, Hp.
  simpl read_digits. rewrite Hdg. rewrite Hd. reflexivity.
Qed.

(** *** The conversion against the literals of the specification *)

Lemma isdigit_spec x : isdigit x = is_digit_char x.
Proof. destruct x as [[] [] [] [] [] [] [] []]; reflexivity. Qed.

Lemma isspace_spec x : isspace x = is_blank_char x.
Proof. destruct x as [[] [] [] [] [] [] [] []]; reflexivity. Qed.

Lemma first_is_ext P Q s :
  (∀ x, P x = Q x) → first_is P s = first_is Q s.
Proof. intros H. destruct s; simpl; auto. Qed.

Lemma skip_spaces_stop s : first_is is_blank_char s = false → skip_spaces s = s.
Proof.
  destruct s as [|x s]; simpl; [reflexivity|].
  rewrite isspace_spec. intros ->. reflexivity.
Qed.

Lemma skip_spaces_text bs s :
  first_is is_blank_char s = false →
  skip_spaces (map blank_char bs ++ s) = s.
Proof.
  intros H. induction bs as [|b bs IH]; simpl.
  - apply skip_spaces_stop. exact H.
  - replace (isspace (blank_char b)) with true by (destruct b; reflexivity).
    exact IH.
Qed.

Lemma read_digits_stop s acc k :
  first_is is_digit_char s = false → read_digits s acc k = (acc, k, s).
Proof.
  destruct s as [|x s]; simpl; [reflexivity|].
  rewrite isdigit_spec. intros ->. reflexivity.
Qed.

Lemma read_digits_text ds s acc k :
  first_is is_digit_char s = false →
  read_digits (digits_text ds ++ s) acc k
  = (digits_from acc ds, (k + length ds)%nat, s).
Proof.
  intros H. revert acc k. induction ds as [|d ds IH]; intros acc k; simpl.
  - rewrite Nat.add_0_r. apply read_digits_stop. exact H.
  - replace (isdigit (digit_char d)) with true by (destruct d; reflexivity).
    replace (digit_value (digit_char d)) with (digit_num d)
      by (destruct d; reflexivity).
    rewrite IH. do 2 f_equal. lia.
Qed.

Lemma read_sign_text sg s :
  read_sign (sign_char sg :: s)
  = (match sg with Minus => true | Plus => false end, s).
Proof. destruct sg; reflexivity. Qed.

Lemma read_sign_stop s :
  first_is is_sign_char s = false → read_sign s = (false, s).
Proof.
  destruct s as [|x s]; simpl; [reflexivity|]. unfold is_sign_char.
  intros H. apply orb_false_iff in H as [Hp Hm]. rewrite Hm, Hp. reflexivity.
Qed.

Lemma read_exponent_stop s :
  starts_exponent s = false → read_exponent s = 0.
Proof.
  destruct s as [|x t]; simpl; [reflexivity|].
  destruct ((x =? "e")%char || (x =? "E")%char); simpl; [|reflexivity].
  intros H. apply orb_false_iff in H as [Hd Hs].
  destruct (first_is is_sign_char t) eqn:Hsg; simpl in Hs.
  - destruct t as [|y t]; [discriminate|]. simpl in Hsg, Hs |- *.
    unfold is_sign_char in Hsg.
    destruct (y =? "-")%char eqn:Hm.
    + rewrite (read_digits_stop t 0 0 Hs). reflexivity.
    + rewrite orb_false_r in Hsg. rewrite Hsg.
      rewrite (read_digits_stop t 0 0 Hs). reflexivity.
  - rewrite (read_sign_stop t Hsg). rewrite (read_digits_stop t 0 0 Hd). reflexivity.
Qed.

Lemma read_exponent_text x s :
  e_digits x ≠ [] →
  first_is is_digit_char s = false →
  read_exponent (exponent_text (Some x) ++ s) = exponent_value (Some x).
Proof.
  intros Hne Hs. destruct x as [up sg ds]. simpl in *.
  replace (((if up then "E" else "e") =? "e")%char
           || ((if up then "E" else "e") =? "E")%char) with true
    by (destruct up; reflexivity).
  rewrite <- app_assoc.
  assert (Hd : first_is is_sign_char (digits_text ds ++ s) = false).
  { destruct ds as [|d ds]; [congruence|]. destruct d; reflexivity. }
  destruct sg as [sg|]; unfold sign_text; simpl app.
  - rewrite read_sign_text, read_digits_text by exact Hs.
    destruct ds as [|d ds]; [congruence|]. simpl length. destruct sg; reflexivity.
  - rewrite read_sign_stop by exact Hd. rewrite read_digits_text by exact Hs.
    destruct ds as [|d ds]; [congruence|]. reflexivity.
Qed.

(** On a literal of the specification followed by text that cannot continue
    it, [atof] gives the value of the literal. *)
Lemma atof_literal n trailing :
  delimited n trailing = true →
  atof (literal_text n ++ trailing) = literal_value n.
Proof.
  destruct n as [bs sg int fr ex]. unfold delimited, literal_text, literal_value,
    has_mantissa, fraction_digits. simpl.
  intros H.
  apply andb_true_iff in H as [H Hempty].
  apply andb_true_iff in H as [H Hexp].
  apply andb_true_iff in H as [H Hdot].
  apply andb_true_iff in H as [Hwf Hdig].
  apply negb_true_iff in Hdig.
  (* the text behind the exponent, the fraction, the integer digits, the sign *)
  set (r3 := exponent_text ex ++ trailing).
  set (r2 := fraction_text fr ++ r3).
  set (r1 := digits_text int ++ r2).
  set (r0 := sign_text sg ++ r1).
  replace ((map blank_char bs ++ sign_text sg ++ digits_text int ++ fraction_text fr
            ++ exponent_text ex) ++ trailing)
    with (map blank_char bs ++ r0)
    by (unfold r0, r1, r2, r3; rewrite <- !app_assoc; reflexivity).
  assert (Hr3 : first_is is_digit_char r3 = false).
  { unfold r3. destruct ex as [[[] ? ?]|]; simpl; [reflexivity..|exact Hdig]. }
  assert (He : read_exponent r3 = exponent_value ex).
  { unfold r3. destruct ex as [x|].
    - apply read_exponent_text; [|exact Hdig].
      destruct (e_digits x); [discriminate|congruence].
    - simpl. apply read_exponent_stop. simpl in Hexp.
      apply negb_true_iff in Hexp. exact Hexp. }
  assert (Hr2 : first_is is_digit_char r2 = false).
  { unfold r2. destruct fr; simpl; [reflexivity|exact Hr3]. }
  assert (Hfrac :
    match r2 with
    | c :: r2' =>
        if (c =? ".")%char then read_digits r2' (digits_from 0 int) 0
        else (digits_from 0 int, O, r2)
    | [] => (digits_from 0 int, O, [])
    end
    = (digits_from 0 (int ++ match fr with Some ds => ds | None => [] end),
       length (match fr with Some ds => ds | None => [] end), r3)).
  { unfold r2. destruct fr as [fd|]; simpl.
    - rewrite read_digits_text by exact Hr3. unfold digits_from.
      rewrite fold_left_app. reflexivity.
    - rewrite app_nil_r. unfold r3.
      destruct ex as [[[] ? ?]|]; simpl; try reflexivity.
      simpl in Hdot. apply negb_true_iff in Hdot.
      destruct trailing as [|x t]; simpl in *; [reflexivity|].
      rewrite Hdot. reflexivity. }
  assert (Hstart : sg = None →
            first_is is_sign_char r1 = false ∧ first_is is_blank_char r1 = false).
  { intros ->. unfold r1, r2, r3.
    destruct int as [|d int]; [|destruct d; split; reflexivity].
    destruct fr; [split; reflexivity|].
    destruct ex as [[[] ? ?]|]; [split; reflexivity..|].
    simpl in Hempty |- *. apply negb_true_iff in Hempty.
    destruct trailing as [|x t]; simpl in *; [split; reflexivity|].
    apply orb_false_iff in Hempty as [Hb Hs]. split; assumption. }
  assert (Hr0 : first_is is_blank_char r0 = false).
  { unfold r0. destruct sg as [[]|]; simpl; [reflexivity..|].
    apply Hstart. reflexivity. }
  assert (Hsign : read_sign r0
                  = (match sg with Some Minus => true | _ => false end, r1)).
  { unfold r0. destruct sg as [sg|]; unfold sign_text; simpl app.
    - rewrite read_sign_text. destruct sg; reflexivity.
    - apply read_sign_stop. apply Hstart. reflexivity. }
  unfold atof. rewrite skip_spaces_text by exact Hr0.
  rewrite Hsign. unfold r1 at 1. rewrite read_digits_text by exact Hr2.
  rewrite Hfrac, He. simpl Nat.add.
  destruct int as [|d int]; destruct fr as [[|d' fd]|]; simpl length; simpl app;
    cbv iota; try reflexivity; destruct sg as [[]|]; reflexivity.
Qed.

Lemma literal_text_no_nul n : NUL ∉ literal_text n.
Proof.
  unfold literal_text. intros H.
  repeat (apply elem_of_app in H as [H|H]).
  - apply list_elem_of_fmap in H as [b [Hb _]]. destruct b; discriminate.
  - destruct (n_sign n) as [[]|]; simpl in H;
      repeat (apply elem_of_cons in H as [H|H]; [discriminate|]);
      exact (proj1 (elem_of_nil _) H).
  - apply list_elem_of_fmap in H as [d [Hd _]]. destruct d; discriminate.
  - destruct (n_frac n) as [ds|]; simpl in H; [|exact (proj1 (elem_of_nil _) H)].
    apply elem_of_cons in H as [H|H]; [discriminate|].
    apply list_elem_of_fmap in H as [d [Hd _]]. destruct d; discriminate.
  - destruct (n_exp n) as [[up sg ds]|]; simpl in H; [|exact (proj1 (elem_of_nil _) H)].
    apply elem_of_cons in H as [H|H]; [destruct up; discriminate|].
    apply elem_of_app in H as [H|H].
    + destruct sg as [[]|]; simpl in H;
        repeat (apply elem_of_cons in H as [H|H]; [discriminate|]);
        exact (proj1 (elem_of_nil _) H).
    + apply list_elem_of_fmap in H as [d [Hd _]]. destruct d; discriminate.
Qed.

Lemma cstr_id s : NUL ∉ s → cstr s = s.
Proof.
  induction s as [|x s IH]; intros H; simpl; [reflexivity|].
  apply not_elem_of_cons in H as [Hx Hs].
  replace (x =? NUL)%char with false by (symmetry; apply Ascii.eqb_neq; congruence).
  rewrite IH by exact Hs. reflexivity.
Qed.

Lemma after_colon_app pre post :
  COLON ∉ pre → after_colon (pre ++ COLON :: post) = post.
Proof.
  induction pre as [|x pre IH]; intros H; simpl.
  - reflexivity.
  - apply not_elem_of_cons in H as [Hx Hpre].
    replace (x =? COLON)%char with false
      by (symmetry; apply Ascii.eqb_neq; congruence).
    apply IH. exact Hpre.
Qed.

(** C2. The conversion applied to the text after the first colon is the
    permissive one, and the call reports success whatever that text is.
    For every frame read in time whose text after the first colon is a
    literal of the specification (white space, sign, digits, decimal
    point, exponent, each optional) followed by trailing characters that
    cannot continue it, parseResponse returns true with the value of the
    literal: the conversion stops at the first trailing character that is
    not part of the number, and the value is zero when the text holds no
    digit. In particular the frame [T:19.75xyz] gives true and 19.75 and
    the frame [T:abc] gives true and 0. *)
Theorem parseResponse_numeric_tolerance
    c value w pre rest junk payload n trailing s :
  polls w = pre ++ rest →
  Forall (on_time (ulong (now w))) pre →
  bytes_of pre
  = junk ++ c :: payload ++ COLON :: (literal_text n ++ trailing) ++ [LF] →
  c ∉ junk →
  c ≠ NUL →
  NUL ∉ payload →
  LF ∉ payload →
  COLON ∉ c :: payload →
  NUL ∉ trailing →
  LF ∉ literal_text n ++ trailing →
  (length payload + length (literal_text n ++ trailing) ≤ 29)%nat →
  delimited n trailing = true →
  outcome (parseResponse c value w) = Done (true, literal_value n)
  ∧ atof (literal_text n ++ trailing) = literal_value n
  ∧ outcome (parseResponse "T" value
               (world0 (feed_at 5 (chars "T:19.75xyz" ++ [LF]))))
    = Done (true, (79 # 4)%Q)
  ∧ outcome (parseResponse "T" value (world0 (feed_at 5 (chars "T:abc" ++ [LF]))))
    = Done (true, 0%Q)
  ∧ atof (chars "19.75xyz" ++ s) = (79 # 4)%Q
  ∧ atof (chars "abc" ++ s) = 0%Q.
Proof.
  intros Hpolls Hpre Hbytes Hjunk Hc Hnul Hlf Hcolon Htnul Htlf Hlen Hdel.
  pose proof (atof_literal n trailing Hdel) as Hatof.
  split; [|split; [exact Hatof|repeat split]].
  set (text := literal_text n ++ trailing) in *.
  assert (Hfeed : feed c (bytes_of pre) locals0 = Some (inr (literal_value n))).
  { rewrite Hbytes, feed_junk by exact Hjunk.
    replace (c :: payload ++ COLON :: text ++ [LF])
      with (c :: (payload ++ COLON :: text) ++ LF :: [])
      by (rewrite <- app_assoc; reflexivity).
    rewrite feed_frame.
    2:{ intros Hin. apply elem_of_app in Hin as [Hin|Hin]; [exact (Hlf Hin)|].
        apply elem_of_cons in Hin as [Hin|Hin]; [discriminate|exact (Htlf Hin)]. }
    rewrite take_ge by (simpl; rewrite length_app; simpl; lia).
    rewrite try_finish_finished by (simpl; rewrite length_app; simpl; lia).
    destruct (strchr_first_colon (c :: payload) text) as [pos [Hpos Hdrop]].
    { intros Hin. apply elem_of_cons in Hin as [Hin|Hin]; [congruence|exact (Hnul Hin)]. }
    change (c :: payload ++ COLON :: text) with ((c :: payload) ++ COLON :: text).
    rewrite Hpos, Hdrop, after_colon_app by exact Hcolon.
    rewrite cstr_id.
    - rewrite Hatof. reflexivity.
    - unfold text. intros Hin. apply elem_of_app in Hin as [Hin|Hin].
      + exact (literal_text_no_nul n Hin).
      + exact (Htnul Hin). }
  destruct (parse_true c value w pre rest _ Hpolls Hpre Hfeed) as [t [ps Hrun]].
  rewrite Hrun. reflexivity.
Qed.

Lemma parseResponse_numeric_tolerance_witness :
  outcome (parseResponse "T" 0%Q
             (world0 (feed_at 5 (chars "xT23.5extra: -1.5E+2 V" ++ [LF]))))
  = Done (true, (-150 # 1)%Q)
  ∧ atof (chars " -1.5E+2 V") = (-150 # 1)%Q
  ∧ outcome (parseResponse "T" 0%Q
               (world0 (feed_at 5 (chars "T:19.75xyz" ++ [LF]))))
    = Done (true, (79 # 4)%Q)
  ∧ outcome (parseResponse "T" 0%Q (world0 (feed_at 5 (chars "T:abc" ++ [LF]))))
    = Done (true, 0%Q)
  ∧ atof (chars "19.75xyz" ++ []) = (79 # 4)%Q
  ∧ atof (chars "abc" ++ []) = 0%Q.
Proof.
  apply (parseResponse_numeric_tolerance "T" 0%Q
           (world0 (feed_at 5 (chars "xT23.5extra: -1.5E+2 V" ++ [LF])))
           (feed_at 5 (chars "xT23.5extra: -1.5E+2 V" ++ [LF])) []
           (chars "x") (chars "23.5extra")
           (mkLiteral [Space] (Some Minus) [D1] (Some [D5])
                     (Some (mkExponent true (Some Plus) [D2])))
           (chars " V") []).
  - reflexivity.
  - all_on_time.
  - reflexivity.
  - not_elem.
  - discriminate.
  - not_elem.
  - not_elem.
  - not_elem.
  - not_elem.
  - not_elem.
  - simpl. lia.
  - reflexivity.
Defined.

(** The two frames of the numeric-tolerance test as literals: [19.75]
    followed by [xyz], and no literal at all followed by [abc]. *)
Example literal_19_75_xyz :
  literal_text (mkLiteral [] None [D1; D9] (Some [D7; D5]) None) ++ chars "xyz"
  = chars "19.75xyz"
  ∧ delimited (mkLiteral [] None [D1; D9] (Some [D7; D5]) None) (chars "xyz") = true
  ∧ literal_value (mkLiteral [] None [D1; D9] (Some [D7; D5]) None) = (79 # 4)%Q
  ∧ literal_text (mkLiteral [] None [] None None) ++ chars "abc" = chars "abc"
  ∧ delimited (mkLiteral [] None [] None None) (chars "abc") = true
  ∧ literal_value (mkLiteral [] None [] None None) = 0%Q.
Proof. repeat split. Qed.

(** ** The receive path on exit *)

(** C5 fails on the success exit. With the frame [T:1] and a line feed
    read in time the call returns true; the only call it has made on the
    bus is the one enabling the receive path, which is still enabled in the
    world it returns. The timeout exit of the same call disables it. *)
Theorem parseResponse_success_leaves_receiving :
  parseResponse "T" 0%Q (world0 (feed_at 5 (chars "T:1" ++ [LF])))
  = Done ((true, 1%Q), mkWorld [EvReceive] true 5 [])
  ∧ parseResponse "T" 0%Q (world0 (feed_at 5 (chars "T:1") ++ [Poll 1000 None]))
    = Done ((false, 0%Q), mkWorld [EvReceive; EvNoReceive] false 1000 []).
Proof.
  split; reflexivity.
Qed.

(** ** The index stays inside the buffer *)

Lemma step_reachable X b l :
  reachable l → ∃ l', step X b l = Some l' ∧ reachable l'.
Proof.
  intros [|data Hlen|data Hlen].
  - destruct (Ascii.eqb_spec b X) as [->|Hne].
    + exists (reading [X]). split; [apply step_wait_start|].
      apply reach_read. simpl. lia.
    + exists locals0. split; [apply step_wait_other; exact Hne|]. apply reach_wait.
  - destruct (Ascii.eqb_spec b LF) as [->|Hne].
    + exists (finished data). split; [|apply reach_done; exact Hlen].
      apply step_read_finish; [lia|left; reflexivity].
    + destruct (Nat.eq_dec (length data) 31%nat) as [H31|H31].
      * exists (finished data). split; [|apply reach_done; exact Hlen].
        apply step_read_finish; [lia|right; exact H31].
      * exists (reading (data ++ [b])). split.
        -- apply step_read_append; [lia|exact Hne].
        -- apply reach_read. rewrite length_app. simpl. lia.
  - exists (finished data). split; [reflexivity|apply reach_done; exact Hlen].
Qed.

Lemma steps_reachable X bs l :
  reachable l → ∃ l', steps X bs l = Some l' ∧ reachable l'.
Proof.
  revert l. induction bs as [|b bs IH]; intros l Hl; simpl.
  - eauto.
  - destruct (step_reachable X b l Hl) as [l1 [-> Hl1]]. apply IH. exact Hl1.
Qed.

Lemma scan_no_fault X s ps l :
  reachable l → is_fault (scan X s ps l) = false.
Proof.
  revert l. induction ps as [|p ps IH]; intros l Hl; simpl.
  - reflexivity.
  - destruct (elapsed (tick p) s <? WEATHERBUSLITE_RESPONSE_TIMEOUT); [|reflexivity].
    destruct (incoming p) as [b|]; [|apply IH; exact Hl].
    destruct (step_reachable X b l Hl) as [l1 [-> Hl1]].
    destruct (try_finish l1); [reflexivity|]. apply IH. exact Hl1.
Qed.

(** With a clock that reaches the end of the budget the call returns. *)
Lemma parseResponse_returns X value w :
  Exists (expired (ulong (now w))) (polls w) →
  ∃ flag value' w', parseResponse X value w = Done ((flag, value'), w').
Proof.
  intros Hex. rewrite parseResponse_unfold.
  assert (Hscan : ∀ ps l, reachable l → Exists (expired (ulong (now w))) ps →
                  ∃ r, scan X (ulong (now w)) ps l = Done r).
  { induction ps as [|p ps IH]; intros l Hl Hps.
    - inversion Hps.
    - simpl.
      destruct (elapsed (tick p) (ulong (now w)) <? WEATHERBUSLITE_RESPONSE_TIMEOUT)
        eqn:Htest; [|eauto].
      assert (Htail : Exists (expired (ulong (now w))) ps).
      { apply Exists_cons in Hps as [Hp|Hps]; [|exact Hps].
        rewrite (expired_test _ _ Hp) in Htest. discriminate. }
      destruct (incoming p) as [b|]; [|apply IH; assumption].
      destruct (step_reachable X b l Hl) as [l1 [-> Hl1]].
      destruct (try_finish l1); [eauto|]. apply IH; assumption. }
  destruct (Hscan (polls w) locals0 reach_wait Hex) as [[[[v|] t] ps] ->]; eauto.
Qed.

Lemma store_inv buf i c buf' :
  store buf i c = Some buf' →
  0 ≤ i < Z.of_nat (length buf) ∧ buf' = <[Z.to_nat i := c]> buf.
Proof.
  unfold store. intros H.
  destruct ((0 <=? i) && (i <? Z.of_nat (length buf))) eqn:Hb; [|discriminate].
  apply andb_true_iff in Hb as [H0 H1].
  apply Z.leb_le in H0. apply Z.ltb_lt in H1.
  injection H as <-. split; [lia|reflexivity].
Qed.

(** C10. No execution of parseResponse stores outside the 32-byte buffer.
    After any sequence of bytes the locals [l] satisfy 0 ≤ index ≤ 31, and
    the next byte [b] is handled by one of four transitions: none (waiting
    for the start, or done), the store of the start byte at index 0, the
    store of a payload byte at an index from 1 to 30 with the index
    advanced by one, or the store of the terminator at an index from 1 to
    31 with the index unchanged, after which the buffer holds a terminator
    at that index. *)
Theorem response_index_in_bounds X value w bs b :
  is_fault (parseResponse X value w) = false
  ∧ ∃ l l',
      steps X bs locals0 = Some l
      ∧ step X b l = Some l'
      ∧ 0 ≤ index l ≤ 31
      ∧ length (response l) = 32%nat
      ∧ match state l, state l' with
        | WAIT_FOR_START, WAIT_FOR_START => l' = l ∧ index l = 0
        | DONE, DONE => l' = l
        | WAIT_FOR_START, READ_PAYLOAD =>
            index l = 0
            ∧ response l' = <[0%nat := b]> (response l)
            ∧ index l' = 1
        | READ_PAYLOAD, READ_PAYLOAD =>
            1 ≤ index l ≤ 30
            ∧ response l' = <[Z.to_nat (index l) := b]> (response l)
            ∧ index l' = index l + 1
        | READ_PAYLOAD, DONE =>
            1 ≤ index l ≤ 31
            ∧ response l' = <[Z.to_nat (index l) := NUL]> (response l)
            ∧ index l' = index l
            ∧ response l' !! Z.to_nat (index l') = Some NUL
        | _, _ => False
        end.
Proof.
  split.
  - rewrite parseResponse_unfold.
    pose proof (scan_no_fault X (ulong (now w)) (polls w) locals0 reach_wait) as H.
    destruct (scan X (ulong (now w)) (polls w) locals0) as [[[[v|] t] ps]| |];
      (reflexivity || discriminate H).
  - destruct (steps_reachable X bs locals0 reach_wait) as [l [Hsteps Hl]].
    exists l. destruct Hl as [|data Hlen|data Hlen].
    + destruct (Ascii.eqb_spec b X) as [->|Hne].
      * exists (reading [X]).
        split; [exact Hsteps|]. split; [apply step_wait_start|].
        simpl. repeat split; lia.
      * exists locals0.
        split; [exact Hsteps|]. split; [apply step_wait_other; exact Hne|].
        simpl. repeat split; lia.
    + assert (Hbuf : length (buffer data) = 32%nat) by (apply length_buffer; lia).
      destruct (Ascii.eqb_spec b LF) as [->|Hne];
        [|destruct (Nat.eq_dec (length data) 31%nat) as [H31|H31]].
      * exists (finished data).
        split; [exact Hsteps|].
        split; [apply step_read_finish; [lia|left; reflexivity]|].
        simpl. rewrite Nat2Z.id.
        pose proof (store_terminator data ltac:(lia)) as Hst.
        apply store_inv in Hst as [_ Hst]. rewrite Nat2Z.id in Hst.
        pose proof (buffer_terminated data ltac:(lia)) as Hnul.
        repeat split; (lia || assumption).
      * exists (finished data).
        split; [exact Hsteps|].
        split; [apply step_read_finish; [lia|right; exact H31]|].
        simpl. rewrite Nat2Z.id.
        pose proof (store_terminator data ltac:(lia)) as Hst.
        apply store_inv in Hst as [_ Hst]. rewrite Nat2Z.id in Hst.
        pose proof (buffer_terminated data ltac:(lia)) as Hnul.
        repeat split; (lia || assumption).
      * exists (reading (data ++ [b])).
        split; [exact Hsteps|].
        split; [apply step_read_append; [lia|exact Hne]|].
        simpl. rewrite Nat2Z.id.
        pose proof (store_append data b ltac:(lia)) as Hst.
        apply store_inv in Hst as [_ Hst]. rewrite Nat2Z.id in Hst.
        rewrite length_app. simpl length.
        repeat split; (lia || assumption).
    + assert (Hbuf : length (buffer data) = 32%nat) by (apply length_buffer; lia).
      exists (finished data).
      split; [exact Hsteps|]. split; [reflexivity|].
      simpl. repeat split; (lia || assumption).
Qed.

(** * Further properties of the parser and the queries *)

(** ** What a return of the scan loop tells about the input *)

Lemma bytes_of_app ps qs : bytes_of (ps ++ qs) = bytes_of ps ++ bytes_of qs.
Proof. unfold bytes_of. apply omap_app. Qed.

Lemma scan_inv X s ps l r t rest :
  scan X s ps l = Done (r, t, rest) →
  ∃ pre p,
    ps = pre ++ p :: rest
    ∧ Forall (on_time s) pre
    ∧ t = ulong (tick p)
    ∧ ∃ l', feed X (bytes_of pre) l = Some (inl l')
        ∧ match r with
          | None => expired s p
          | Some v =>
              on_time s p
              ∧ ∃ b l'', incoming p = Some b
                  ∧ step X b l' = Some l'' ∧ try_finish l'' = Some v
          end.
Proof.
  revert l. induction ps as [|q ps IH]; intros l H; simpl in H.
  - discriminate.
  - destruct (elapsed (tick q) s <? WEATHERBUSLITE_RESPONSE_TIMEOUT) eqn:Htest.
    + apply Z.ltb_lt in Htest.
      assert (Hgo : ∀ l1, feed X (bytes_of [q]) l = Some (inl l1) →
                scan X s ps l1 = Done (r, t, rest) →
                ∃ pre p, q :: ps = pre ++ p :: rest ∧ Forall (on_time s) pre
                  ∧ t = ulong (tick p)
                  ∧ ∃ l', feed X (bytes_of pre) l = Some (inl l')
                      ∧ match r with
                        | None => expired s p
                        | Some v =>
                            on_time s p
                            ∧ ∃ b l'', incoming p = Some b
                                ∧ step X b l' = Some l'' ∧ try_finish l'' = Some v
                        end).
      { intros l1 Hq Hrec.
        destruct (IH l1 Hrec) as [pre [p [-> [Hpre [Ht [l' [Hfeed Hr]]]]]]].
        exists (q :: pre), p. split; [reflexivity|].
        split; [apply Forall_cons; split; assumption|].
        split; [exact Ht|]. exists l'. split; [|exact Hr].
        change (q :: pre) with ([q] ++ pre). rewrite bytes_of_app.
        unfold bytes_of in Hq |- *. simpl in Hq |- *.
        destruct (incoming q) as [b|]; simpl in Hq |- *.
        - destruct (step X b l) as [l2|]; [|discriminate].
          destruct (try_finish l2); [discriminate|].
          injection Hq as ->. exact Hfeed.
        - injection Hq as ->. exact Hfeed. }
      destruct (incoming q) as [b|] eqn:Hb.
      * destruct (step X b l) as [l1|] eqn:Hstep; [|discriminate].
        destruct (try_finish l1) as [v|] eqn:Hv.
        -- injection H as <- <- <-.
           exists [], q. split; [reflexivity|]. split; [apply Forall_nil_2|].
           split; [reflexivity|]. exists l. split; [reflexivity|].
           split; [exact Htest|]. exists b, l1. auto.
        -- apply (Hgo l1); [|exact H].
           unfold bytes_of. simpl. rewrite Hb. simpl. rewrite Hstep, Hv. reflexivity.
      * apply (Hgo l); [|exact H].
        unfold bytes_of. simpl. rewrite Hb. reflexivity.
    + apply Z.ltb_ge in Htest. injection H as <- <- <-.
      exists [], q. split; [reflexivity|]. split; [apply Forall_nil_2|].
      split; [reflexivity|]. exists l. split; [reflexivity|]. exact Htest.
Qed.

Section StreamInversion.

Variable X : ascii.

Lemma feed_reading_inv bs data l' :
  (length data ≤ 31)%nat →
  feed X bs (reading data) = Some (inl l') →
  ((LF ∉ bs) ∧ (length data + length bs ≤ 31)%nat ∧ l' = reading (data ++ bs))
  ∨ ∃ body t more,
      bs = body ++ t :: more
      ∧ (LF ∉ body)
      ∧ (length data + length body ≤ 31)%nat
      ∧ (t = LF ∨ (length data + length body = 31)%nat)
      ∧ l' = finished (data ++ body)
      ∧ try_finish (finished (data ++ body)) = None.
Proof.
  revert data. induction bs as [|b bs IH]; intros data Hlen H.
  - left. simpl in H. injection H as <-. rewrite app_nil_r.
    split; [apply not_elem_of_nil|]. split; [simpl; lia|reflexivity].
  - destruct (Ascii.eqb_spec b LF) as [Hb|Hb];
      [|destruct (Nat.eq_dec (length data) 31%nat) as [H31|H31]].
    + right. rewrite feed_finish in H by (lia || (left; exact Hb)).
      destruct (try_finish (finished data)) eqn:Hv; [discriminate|].
      injection H as <-. exists [], b, bs. rewrite app_nil_r. simpl.
      split; [reflexivity|]. split; [apply not_elem_of_nil|].
      split; [lia|]. split; [left; exact Hb|]. split; [reflexivity|exact Hv].
    + right. rewrite feed_finish in H by (lia || (right; exact H31)).
      destruct (try_finish (finished data)) eqn:Hv; [discriminate|].
      injection H as <-. exists [], b, bs. rewrite app_nil_r. simpl.
      split; [reflexivity|]. split; [apply not_elem_of_nil|].
      split; [lia|]. split; [right; lia|]. split; [reflexivity|exact Hv].
    + simpl in H. rewrite step_read_append in H by (lia || exact Hb).
      rewrite try_finish_reading in H.
      assert (Hlen' : (length (data ++ [b]) ≤ 31)%nat)
        by (rewrite length_app; simpl; lia).
      destruct (IH _ Hlen' H) as [[Hlf [Hl ->]]|[body [t [more [-> [Hlf [Hl [Ht [-> Hv]]]]]]]]];
        rewrite length_app in Hl; simpl in Hl.
      * left. split; [|split; [simpl; lia|rewrite <- app_assoc; reflexivity]].
        apply not_elem_of_cons. split; [congruence|exact Hlf].
      * right. exists (b :: body), t, more. rewrite <- app_assoc in Hv |- *.
        split; [reflexivity|].
        split; [apply not_elem_of_cons; split; [congruence|exact Hlf]|].
        split; [simpl; lia|]. split; [|split; [reflexivity|exact Hv]].
        destruct Ht as [Ht|Ht];
          [left; exact Ht|right; rewrite length_app in Ht; simpl in *; lia].
Qed.

(** The locals the byte stream can leave behind while the loop runs. *)
Lemma feed_running_inv bs l' :
  feed X bs locals0 = Some (inl l') →
  ((X ∉ bs) ∧ l' = locals0)
  ∨ (∃ junk body,
       bs = junk ++ X :: body ∧ (X ∉ junk) ∧ (LF ∉ body)
       ∧ (length body ≤ 30)%nat ∧ l' = reading (X :: body))
  ∨ (∃ junk body t more,
       bs = junk ++ X :: body ++ t :: more ∧ (X ∉ junk) ∧ (LF ∉ body)
       ∧ (length body ≤ 30)%nat ∧ (t = LF ∨ length body = 30%nat)
       ∧ l' = finished (X :: body)
       ∧ try_finish (finished (X :: body)) = None).
Proof.
  induction bs as [|b bs IH]; intros H.
  - left. simpl in H. injection H as <-. split; [apply not_elem_of_nil|reflexivity].
  - destruct (Ascii.eqb_spec b X) as [->|Hb].
    + rewrite feed_start in H. right.
      destruct (feed_reading_inv bs [X] l' ltac:(simpl; lia) H)
        as [[Hlf [Hl ->]]|[body [t [more [-> [Hlf [Hl [Ht [-> Hv]]]]]]]]];
        simpl in Hl.
      * left. exists [], bs. simpl.
        split; [reflexivity|]. split; [apply not_elem_of_nil|].
        split; [exact Hlf|]. split; [lia|reflexivity].
      * right. exists [], body, t, more. simpl.
        split; [reflexivity|]. split; [apply not_elem_of_nil|].
        split; [exact Hlf|]. split; [lia|].
        split; [destruct Ht as [Ht|Ht]; [left; exact Ht|right; simpl in Ht; lia]|].
        split; [reflexivity|exact Hv].
    + simpl in H. rewrite step_wait_other in H by exact Hb.
      change (try_finish locals0) with (@None float) in H.
      destruct (IH H) as [[Hx ->]|[[junk [body [-> [Hj [Hlf [Hl ->]]]]]]
                                  |[junk [body [t [more [-> [Hj [Hlf [Hl [Ht [-> Hv]]]]]]]]]]]].
      * left. split; [|reflexivity]. apply not_elem_of_cons. split; [congruence|exact Hx].
      * right. left. exists (b :: junk), body.
        split; [reflexivity|].
        split; [apply not_elem_of_cons; split; [congruence|exact Hj]|].
        split; [exact Hlf|]. split; [exact Hl|reflexivity].
      * right. right. exists (b :: junk), body, t, more.
        split; [reflexivity|].
        split; [apply not_elem_of_cons; split; [congruence|exact Hj]|].
        split; [exact Hlf|]. split; [exact Hl|]. split; [exact Ht|].
        split; [reflexivity|exact Hv].
Qed.

(** The one transition after which the body returns true. *)
Lemma finishing_step_inv bs l' b l'' v :
  feed X bs locals0 = Some (inl l') →
  step X b l' = Some l'' →
  try_finish l'' = Some v →
  ∃ junk body,
    bs = junk ++ X :: body ∧ (X ∉ junk) ∧ (LF ∉ body)
    ∧ (length body ≤ 30)%nat ∧ (b = LF ∨ length body = 30%nat)
    ∧ try_finish (finished (X :: body)) = Some v.
Proof.
  intros Hfeed Hstep Hv.
  destruct (feed_running_inv bs l' Hfeed)
    as [[Hx ->]|[[junk [body [-> [Hj [Hlf [Hl ->]]]]]]
                |[junk [body [t [more [-> [Hj [Hlf [Hl [Ht [-> Hnone]]]]]]]]]]]].
  - destruct (Ascii.eqb_spec b X) as [->|Hb].
    + rewrite step_wait_start in Hstep. injection Hstep as <-. discriminate.
    + rewrite step_wait_other in Hstep by exact Hb. injection Hstep as <-. discriminate.
  - exists junk, body.
    destruct (Ascii.eqb_spec b LF) as [Hb|Hb];
      [|destruct (Nat.eq_dec (length body) 30%nat) as [H30|H30]].
    + rewrite step_read_finish in Hstep by (simpl; lia || (left; exact Hb)).
      injection Hstep as <-. auto 10.
    + rewrite step_read_finish in Hstep by (simpl; lia).
      injection Hstep as <-. auto 10.
    + rewrite step_read_append in Hstep by (simpl; lia || exact Hb).
      injection Hstep as <-. discriminate.
  - change (step X b (finished (X :: body))) with (Some (finished (X :: body))) in Hstep.
    injection Hstep as <-. congruence.
Qed.

End StreamInversion.

Lemma strchr_lookup s c p : strchr s c = Some p → s !! p = Some c.
Proof.
  revert p. induction s as [|x s IH]; simpl; intros p H.
  - discriminate.
  - destruct (Ascii.eqb_spec x c) as [->|Hx].
    + injection H as <-. reflexivity.
    + destruct (x =? NUL)%char; [discriminate|].
      destruct (strchr s c) as [q|]; simpl in H; [|discriminate].
      injection H as <-. simpl. apply IH. reflexivity.
Qed.

Lemma parseResponse_true_scan c value w value' w' :
  parseResponse c value w = Done ((true, value'), w') →
  scan c (ulong (now w)) (polls w) locals0 = Done (Some value', now w', polls w')
  ∧ calls w' = calls w ++ [EvReceive] ∧ receiving w' = true.
Proof.
  rewrite parseResponse_unfold.
  destruct (scan c (ulong (now w)) (polls w) locals0) as [[[[v|] t] ps]| |];
    intros H; inversion H; subst; simpl; auto.
Qed.

Lemma parseResponse_false_scan c value w value' w' :
  parseResponse c value w = Done ((false, value'), w') →
  scan c (ulong (now w)) (polls w) locals0 = Done (None, now w', polls w')
  ∧ calls w' = calls w ++ [EvReceive; EvNoReceive] ∧ receiving w' = false.
Proof.
  rewrite parseResponse_unfold.
  destruct (scan c (ulong (now w)) (polls w) locals0) as [[[[v|] t] ps]| |];
    intros H; inversion H; subst; simpl; rewrite <- ?app_assoc; auto.
Qed.

(** What the input must have been for the call to return true. *)
Lemma success_shape c value w value' w' :
  parseResponse c value w = Done ((true, value'), w') →
  ∃ pre p junk body t pos,
    polls w = pre ++ p :: polls w'
    ∧ Forall (on_time (ulong (now w))) (pre ++ [p])
    ∧ bytes_of pre = junk ++ c :: body
    ∧ incoming p = Some t
    ∧ (c ∉ junk) ∧ (LF ∉ body) ∧ (length body ≤ 30)%nat
    ∧ (t = LF ∨ length body = 30%nat)
    ∧ strchr (c :: body) COLON = Some pos
    ∧ (c :: body) !! pos = Some COLON
    ∧ value' = atof (cstr (drop (S pos) (c :: body))).
Proof.
  intros H. apply parseResponse_true_scan in H as [Hscan _].
  apply scan_inv in Hscan
    as [pre [p [Hpolls [Hpre [_ [l' [Hfeed [Hp [b [l'' [Hb [Hstep Hv]]]]]]]]]]]].
  destruct (finishing_step_inv c _ _ _ _ _ Hfeed Hstep Hv)
    as [junk [body [Hbytes [Hj [Hlf [Hlen [Ht Hfin]]]]]]].
  rewrite try_finish_finished in Hfin by (simpl; lia).
  destruct (strchr (c :: body) COLON) as [pos|] eqn:Hpos; [|discriminate].
  injection Hfin as <-.
  exists pre, p, junk, body, b, pos.
  split; [exact Hpolls|].
  split; [apply Forall_app; split; [exact Hpre|apply Forall_cons; split; [exact Hp|apply Forall_nil_2]]|].
  split; [exact Hbytes|]. split; [exact Hb|].
  split; [exact Hj|]. split; [exact Hlf|]. split; [exact Hlen|].
  split; [exact Ht|]. split; [exact Hpos|].
  split; [apply strchr_lookup; exact Hpos|reflexivity].
Qed.

(** ** Success is sound *)

(** X1. parseResponse returns true only in one situation: the iterations
    it consumed were all within the budget, the bytes they delivered were
    bytes different from the code, the code, at most 30 further bytes
    without line feed, and a last byte that is a line feed or arrives at a
    full buffer; the code and the further bytes hold a colon before any
    NUL, and the value returned is the conversion of the text behind the
    first colon. The iterations after that last byte are left unconsumed. *)
Theorem parseResponse_true_inv c value w value' w' :
  parseResponse c value w = Done ((true, value'), w') →
  ∃ pre p junk body t pos,
    polls w = pre ++ p :: polls w'
    ∧ Forall (on_time (ulong (now w))) (pre ++ [p])
    ∧ bytes_of pre = junk ++ c :: body
    ∧ incoming p = Some t
    ∧ (c ∉ junk) ∧ (LF ∉ body) ∧ (length body ≤ 30)%nat
    ∧ (t = LF ∨ length body = 30%nat)
    ∧ strchr (c :: body) COLON = Some pos
    ∧ (c :: body) !! pos = Some COLON
    ∧ value' = atof (cstr (drop (S pos) (c :: body))).
Proof. apply success_shape. Qed.

Lemma parseResponse_true_inv_witness :
  ∃ pre p junk body t pos,
    feed_at 5 (chars "xT2:7" ++ [LF] ++ chars "H") = pre ++ p :: feed_at 5 (chars "H")
    ∧ Forall (on_time 0) (pre ++ [p])
    ∧ bytes_of pre = junk ++ "T"%char :: body
    ∧ incoming p = Some t
    ∧ ("T"%char ∉ junk) ∧ (LF ∉ body) ∧ (length body ≤ 30)%nat
    ∧ (t = LF ∨ length body = 30%nat)
    ∧ strchr ("T"%char :: body) COLON = Some pos
    ∧ ("T"%char :: body) !! pos = Some COLON
    ∧ (7 # 1)%Q = atof (cstr (drop (S pos) ("T"%char :: body))).
Proof.
  apply (parseResponse_true_inv "T" 0%Q
           (world0 (feed_at 5 (chars "xT2:7" ++ [LF] ++ chars "H")))
           (7 # 1)%Q
           (mkWorld [EvReceive] true 5 (feed_at 5 (chars "H")))).
  reflexivity.
Defined.

(** ** Failure takes the whole budget *)

(** X2. parseResponse returns false only from the loop test: the
    iterations it consumed before were all within the budget, the last one
    it consumed had the budget used up, and on return the two bus calls
    made are the enabling and the disabling of the receive path. A
    malformed or foreign frame is never reported early. *)
Theorem parseResponse_false_inv c value w value' w' :
  parseResponse c value w = Done ((false, value'), w') →
  ∃ pre p,
    polls w = pre ++ p :: polls w'
    ∧ Forall (on_time (ulong (now w))) pre
    ∧ expired (ulong (now w)) p
    ∧ now w' = ulong (tick p)
    ∧ calls w' = calls w ++ [EvReceive; EvNoReceive]
    ∧ receiving w' = false.
Proof.
  intros H. apply parseResponse_false_scan in H as [Hscan [Hcalls Hrecv]].
  apply scan_inv in Hscan as [pre [p [Hpolls [Hpre [Ht [l' [_ Hp]]]]]]].
  exists pre, p. auto 10.
Qed.

Lemma parseResponse_false_inv_witness :
  ∃ pre p,
    feed_at 5 (chars "T23.5" ++ [LF]) ++ [Poll 1000 None; Poll 1001 None]
    = pre ++ p :: [Poll 1001 None]
    ∧ Forall (on_time 0) pre
    ∧ expired 0 p
    ∧ 1000 = ulong (tick p)
    ∧ [EvReceive; EvNoReceive] = [] ++ [EvReceive; EvNoReceive]
    ∧ false = false.
Proof.
  apply (parseResponse_false_inv "T" 0%Q
           (world0 (feed_at 5 (chars "T23.5" ++ [LF])
                    ++ [Poll 1000 None; Poll 1001 None]))
           0%Q
           (mkWorld [EvReceive; EvNoReceive] false 1000 [Poll 1001 None])).
  reflexivity.
Defined.

(** ** The clock may roll over during a call *)

(** X3. The elapsed time the loop test computes is the true number of
    milliseconds since entry whatever the clock value on entry was, as long
    as fewer than 2^32 ms have passed: the 32-bit counter rolling over
    through zero during the call does not disturb the timeout. *)
Theorem elapsed_rollover start d :
  0 ≤ d < 2 ^ 32 →
  elapsed (start + d) (ulong start) = d.
Proof.
  intros Hd. unfold elapsed, ulong.
  rewrite <- Zminus_mod. replace (start + d - start) with d by lia.
  apply Z.mod_small. exact Hd.
Qed.

Lemma elapsed_rollover_witness :
  elapsed (4294967290 + 999) (ulong 4294967290) = 999.
Proof.
  apply (elapsed_rollover 4294967290 999). lia.
Defined.

(** ** Codes and streams that cannot succeed *)

(** X4. With the code NUL neither parseResponse nor queryCustom ever
    returns true, whatever arrives: the start byte stored at offset 0 is
    the terminator of the C string in which the colon is looked for. *)
Theorem nul_code_never_succeeds value w :
  succeeded (parseResponse NUL value w) = false
  ∧ succeeded (queryCustom NUL value w) = false.
Proof.
  assert (Hp : ∀ w0, succeeded (parseResponse NUL value w0) = false).
  { intros w0.
    destruct (parseResponse NUL value w0) as [[[[|] v'] w']| |] eqn:H; try reflexivity.
    apply success_shape in H
      as [pre [p [junk [body [t [pos [_ [_ [_ [_ [_ [_ [_ [_ [Hpos _]]]]]]]]]]]]]]].
    simpl in Hpos. discriminate. }
  split; [apply Hp|].
  unfold queryCustom. rewrite query_unfold. apply Hp.
Qed.

(** X5. If the iterations to come never deliver a byte equal to the
    requested code, or never deliver a colon, parseResponse does not return
    true, however the bytes are timed. *)
Theorem no_success_without_code_and_colon c value w :
  (c ∉ bytes_of (polls w)) ∨ (COLON ∉ bytes_of (polls w)) →
  succeeded (parseResponse c value w) = false.
Proof.
  intros Hno.
  destruct (parseResponse c value w) as [[[[|] v'] w']| |] eqn:H; try reflexivity.
  exfalso.
  apply success_shape in H
    as [pre [p [junk [body [t [pos [Hpolls [_ [Hbytes [_ [_ [_ [_ [_ [_ [Hcolon _]]]]]]]]]]]]]]]].
  assert (Hsub : ∀ x, x ∈ c :: body → x ∈ bytes_of (polls w)).
  { intros x Hx. rewrite Hpolls, bytes_of_app, Hbytes.
    apply elem_of_app. left. apply elem_of_app. right. exact Hx. }
  destruct Hno as [Hc|Hc]; apply Hc, Hsub.
  - left.
  - apply list_elem_of_lookup. eauto.
Qed.

Lemma no_success_without_code_and_colon_witness :
  succeeded (parseResponse "T" 0%Q
               (world0 (feed_at 5 (chars "T19.75" ++ [LF]) ++ [Poll 2000 None])))
  = false.
Proof.
  apply (no_success_without_code_and_colon "T" 0%Q
           (world0 (feed_at 5 (chars "T19.75" ++ [LF]) ++ [Poll 2000 None]))).
  right. not_elem.
Defined.

(** X9. A NUL byte in the frame before the first colon hides the colon:
    when the bytes to come are bytes different from the code, the code, a
    colon-free text, a NUL and anything else, parseResponse does not return
    true. *)
Theorem nul_before_colon_hides_it c value w junk front back :
  bytes_of (polls w) = junk ++ c :: front ++ NUL :: back →
  c ∉ junk →
  COLON ∉ c :: front →
  succeeded (parseResponse c value w) = false.
Proof.
  intros Hstream Hjunk Hfront.
  destruct (parseResponse c value w) as [[[[|] v'] w']| |] eqn:H; try reflexivity.
  exfalso.
  apply success_shape in H
    as [pre [p [junk' [body [t [pos [Hpolls [_ [Hbytes [Hp [Hj' [_ [_ [_ [Hpos _]]]]]]]]]]]]]]].
  assert (Hall : bytes_of (polls w) = junk' ++ c :: (body ++ t :: bytes_of (polls w'))).
  { rewrite Hpolls, bytes_of_app, Hbytes. rewrite <- app_assoc. simpl. do 2 f_equal.
    unfold bytes_of. simpl. rewrite Hp. reflexivity. }
  rewrite Hstream in Hall.
  apply not_elem_of_app_cons_inv_l in Hall as [_ [_ Hrest]]; [|assumption..].
  assert (Hnone : strchr (c :: body) COLON = None); [|congruence].
  apply app_eq_inv in Hrest as [[k [Hfr _]]|[k [Hbody Hk]]].
  - apply strchr_absent. subst front. intros Hin. apply Hfront.
    rewrite app_comm_cons. apply elem_of_app. left. exact Hin.
  - destruct k as [|x k].
    + rewrite app_nil_r in Hbody. subst body. apply strchr_absent. exact Hfront.
    + simpl in Hk. injection Hk as <- _. subst body.
      rewrite app_comm_cons, strchr_zeros. apply strchr_absent. exact Hfront.
Qed.

Lemma nul_before_colon_hides_it_witness :
  succeeded (parseResponse "T" 0%Q
               (world0 (feed_at 5 (chars "xT2" ++ [NUL] ++ chars ":19.75" ++ [LF])
                        ++ [Poll 2000 None])))
  = false.
Proof.
  apply (nul_before_colon_hides_it "T" 0%Q
           (world0 (feed_at 5 (chars "xT2" ++ [NUL] ++ chars ":19.75" ++ [LF])
                    ++ [Poll 2000 None]))
           (chars "x") (chars "2") (chars ":19.75" ++ [LF])).
  - reflexivity.
  - not_elem.
  - not_elem.
Defined.

(** ** One attempt per query *)

Lemma parseResponse_exact_calls c value w flag value' w' :
  parseResponse c value w = Done ((flag, value'), w') →
  calls w' = calls w ++ EvReceive :: (if flag then [] else [EvNoReceive])
  ∧ receiving w' = flag
  ∧ ∃ used, polls w = used ++ polls w'.
Proof.
  destruct flag; intros H.
  - pose proof (success_shape _ _ _ _ _ H) as [pre [p [junk [body [t [pos [Hpolls _]]]]]]].
    apply parseResponse_true_scan in H as [_ [Hc Hr]].
    split; [exact Hc|]. split; [exact Hr|].
    exists (pre ++ [p]). rewrite <- app_assoc. exact Hpolls.
  - apply parseResponse_false_scan in H as [Hscan [Hc Hr]].
    apply scan_inv in Hscan as [pre [p [Hpolls _]]].
    split; [exact Hc|]. split; [exact Hr|].
    exists (pre ++ [p]). rewrite <- app_assoc. exact Hpolls.
Qed.

(** X6. Every query operation that returns has made one attempt and no
    more: on the bus it has opened one transmit session, written the two
    bytes of the query and the line terminator once, flushed, waited the
    grace interval, enabled the receive path, and disabled it again if and
    only if it returns false. Nothing is retransmitted, whatever the
    outcome. *)
Theorem query_single_attempt c f value w (flag : bool) value' w' :
  c ≠ NUL →
  (c, f) ∈ (c, queryCustom c) :: fixed_queries →
  f value w = Done ((flag, value'), w') →
  calls w' =
    calls w ++ [EvBeginTransmission; EvPrint ["?"%char; c]; EvPrintln;
                EvEndTransmission; EvFlush; EvDelay 2; EvReceive]
            ++ (if flag then [] else [EvNoReceive])
  ∧ receiving w' = flag.
Proof.
  intros Hc Hf Hrun.
  assert (Hq : f value w = parseResponse c value (sent c w)).
  { apply elem_of_cons in Hf as [Hf|Hf].
    - injection Hf as ->. apply queryCustom_unfold. exact Hc.
    - unfold fixed_queries in Hf.
      repeat (apply elem_of_cons in Hf as [Hf|Hf];
              [injection Hf as -> ->; apply query_unfold|]).
      exfalso. exact (proj1 (elem_of_nil _) Hf). }
  rewrite Hq in Hrun.
  apply parseResponse_exact_calls in Hrun as [Hcalls [Hrecv _]].
  split; [|exact Hrecv].
  rewrite Hcalls. unfold sent, query_calls. simpl calls.
  rewrite <- app_assoc. reflexivity.
Qed.

Lemma query_single_attempt_witness :
  calls (mkWorld (query_calls "W" ++ [EvReceive; EvNoReceive]) false 1002 [])
  = calls (world0 (feed_at 5 (chars "W3.1") ++ [Poll 1002 None]))
    ++ [EvBeginTransmission; EvPrint ["?"%char; "W"%char]; EvPrintln;
        EvEndTransmission; EvFlush; EvDelay 2; EvReceive]
    ++ [EvNoReceive]
  ∧ receiving (mkWorld (query_calls "W" ++ [EvReceive; EvNoReceive]) false 1002 [])
    = false.
Proof.
  apply (query_single_attempt "W" queryWindSpeed (1 # 1)%Q
           (world0 (feed_at 5 (chars "W3.1") ++ [Poll 1002 None]))
           false (1 # 1)%Q
           (mkWorld (query_calls "W" ++ [EvReceive; EvNoReceive]) false 1002 [])).
  - discriminate.
  - do 7 (apply elem_of_cons; right). apply elem_of_cons. left. reflexivity.
  - reflexivity.
Defined.

(** ** Noise before the frame *)

(** X7. Iterations within the budget that deliver nothing or deliver bytes
    different from the requested code have no effect at all: the call
    behaves, in result and in the world it leaves, as if it had started
    with the iterations that follow them. *)
Theorem leading_noise_ignored c value log rx clock noise rest :
  Forall (on_time (ulong clock)) noise →
  c ∉ bytes_of noise →
  parseResponse c value (mkWorld log rx clock (noise ++ rest))
  = parseResponse c value (mkWorld log rx clock rest).
Proof.
  intros Htime Hnoise. rewrite !parseResponse_unfold. simpl.
  rewrite (scan_running c (ulong clock) noise rest locals0 locals0 Htime).
  - reflexivity.
  - rewrite <- (app_nil_r (bytes_of noise)).
    rewrite feed_junk by exact Hnoise. reflexivity.
Qed.

Lemma leading_noise_ignored_witness :
  parseResponse "T" 0%Q
    (mkWorld [] false 0
       ([Poll 1 (Some "H"%char); Poll 2 None; Poll 3 (Some ":"%char)]
        ++ feed_at 5 (chars "T:4" ++ [LF])))
  = parseResponse "T" 0%Q (mkWorld [] false 0 (feed_at 5 (chars "T:4" ++ [LF]))).
Proof.
  apply (leading_noise_ignored "T" 0%Q [] false 0
           [Poll 1 (Some "H"%char); Poll 2 None; Poll 3 (Some ":"%char)]
           (feed_at 5 (chars "T:4" ++ [LF]))).
  - all_on_time.
  - not_elem.
Defined.

(** ** The call is bounded *)

Lemma scan_bounded X s pre p rest l :
  reachable l → expired s p →
  ∃ r t ps used,
    scan X s (pre ++ p :: rest) l = Done (r, t, ps)
    ∧ pre ++ p :: rest = used ++ ps
    ∧ (length used ≤ S (length pre))%nat.
Proof.
  intros Hl Hp. revert l Hl. induction pre as [|q pre IH]; intros l Hl.
  - simpl. rewrite (expired_test _ _ Hp).
    exists None, (ulong (tick p)), rest, [p]. simpl. auto.
  - simpl.
    assert (Hrec : ∀ l1, reachable l1 →
              ∃ r t ps used,
                scan X s (pre ++ p :: rest) l1 = Done (r, t, ps)
                ∧ q :: pre ++ p :: rest = used ++ ps
                ∧ (length used ≤ S (S (length pre)))%nat).
    { intros l1 Hl1. destruct (IH l1 Hl1) as [r [t [ps [used [Hs [Heq Hlen]]]]]].
      exists r, t, ps, (q :: used). rewrite Hs, Heq. simpl. split; [reflexivity|].
      split; [reflexivity|lia]. }
    destruct (elapsed (tick q) s <? WEATHERBUSLITE_RESPONSE_TIMEOUT).
    + destruct (incoming q) as [b|]; [|apply Hrec; exact Hl].
      destruct (step_reachable X b l Hl) as [l1 [-> Hl1]].
      destruct (try_finish l1) as [v|]; [|apply Hrec; exact Hl1].
      exists (Some v), (ulong (tick q)), (pre ++ p :: rest), [q]. simpl.
      split; [reflexivity|]. split; [reflexivity|lia].
    + exists None, (ulong (tick q)), (pre ++ p :: rest), [q]. simpl.
      split; [reflexivity|]. split; [reflexivity|lia].
Qed.

(** X8. parseResponse always returns by the first iteration whose loop
    test finds the budget used up: if that iteration is the n-th one to
    come, the call returns a flag and a value, never faults, and has
    consumed at most n iterations; everything after them is left for later
    calls. *)
Theorem parseResponse_bounded c value w pre p rest :
  polls w = pre ++ p :: rest →
  expired (ulong (now w)) p →
  ∃ flag value' w' used,
    parseResponse c value w = Done ((flag, value'), w')
    ∧ polls w = used ++ polls w'
    ∧ (length used ≤ S (length pre))%nat.
Proof.
  intros Hpolls Hp. rewrite parseResponse_unfold, Hpolls.
  destruct (scan_bounded c (ulong (now w)) pre p rest locals0 reach_wait Hp)
    as [r [t [ps [used [-> [Heq Hlen]]]]]].
  destruct r as [v|].
  - exists true, v, (mkWorld (calls w ++ [EvReceive]) true t ps), used. auto.
  - exists false, value,
      (mkWorld ((calls w ++ [EvReceive]) ++ [EvNoReceive]) false t ps), used. auto.
Qed.

Lemma parseResponse_bounded_witness :
  ∃ flag value' w' used,
    parseResponse "T" 0%Q
      (world0 (feed_at 5 (chars "T:1") ++ [Poll 1000 (Some LF); Poll 1001 None]))
    = Done ((flag, value'), w')
    ∧ feed_at 5 (chars "T:1") ++ [Poll 1000 (Some LF); Poll 1001 None]
      = used ++ polls w'
    ∧ (length used ≤ 4)%nat.
Proof.
  apply (parseResponse_bounded "T" 0%Q
           (world0 (feed_at 5 (chars "T:1") ++ [Poll 1000 (Some LF); Poll 1001 None]))
           (feed_at 5 (chars "T:1")) (Poll 1000 (Some LF)) [Poll 1001 None]).
  - reflexivity.
  - intros H. discriminate H.
Defined.

(** ** The public call surface *)




